(** * SuperDespacho monthly projection: the computational core of
      [streamlit_app.py]

    The dashboard reads three month-indexed panels and shows, for a chosen
    product, client or the whole company, a seasonal-naive projection of a
    target month.  This development embeds the helpers that carry the
    decision logic:

    - [month_start_from_yyyymm], [normalize_month] (target month),
    - [safe_filter_options] (option filter of the selectors),
    - [seasonal_baseline] (the estimator),
    - [dfE] (company-month aggregate of the category panel),
    - [fmt_int] (the displayed number), [load_parquet] (month
      normalisation), and the page around them: the last month of the
      data, the default target and its horizon, and the product and
      client tabs ([entity_tab]).

    Numeric model.  The measures are Python floats.  A float is modelled
    as [pyfloat]: a rational ([Finite q]) or [NaN], the value pandas uses
    for a missing entry and for the mean of no entries.  Sums and
    quotients are exact: the theorems speak of the arithmetic mean, not
    of its rounding, and of series without infinite entries.  What
    [fmt_int] prints is given for every float, the signed zero and the
    infinities included ([anyfloat]).  Integers of the code ([k_years],
    [fallback_last_n], [max_show]) are [Z], with what pandas and Python
    do for zero and negative values written out.

    Library functions whose tables are not in the repository are
    parameters: [str.lower] and [str.strip] ([StrOps]) and the parser
    [pd.to_datetime] ([DateParser]).  The theorems hold for every
    instance; the ASCII functions and the ISO parser are instances on
    which the code can be run. *)

From Stdlib Require Import Strings.String Strings.Ascii.
From Stdlib Require Import ZArith QArith Qminmax Qround List Bool Lia Lqa.
From Stdlib Require Import Sorting.Sorted Sorting.Permutation.
Import ListNotations.

Local Open Scope Z_scope.

(** ** Floats *)

Inductive pyfloat : Type :=
| Finite (q : Q)
| NaN.

Definition is_nan (x : pyfloat) : bool :=
  match x with NaN => true | Finite _ => false end.

(** [a < b] on rationals, as a boolean. *)
Definition Qltb (a b : Q) : bool := negb (Qle_bool b a).

(** Python's [x > y] on floats: every comparison with NaN is false. *)
Definition py_gt (x y : pyfloat) : bool :=
  match x, y with
  | Finite a, Finite b => Qltb b a
  | _, _ => false
  end.

(** Python's two-argument [max(a, b)]: [b] replaces [a] only when
    [b > a]. *)
Definition py_max (a b : pyfloat) : pyfloat :=
  if py_gt b a then b else a.

Definition zero : pyfloat := Finite 0.

(** ** Timestamps *)

Record Timestamp : Type := mkTs { year : Z; month : Z; day : Z }.

(** [ts.to_period("M").to_timestamp()]: the first day of the month. *)
Definition to_period_M_to_timestamp (ts : Timestamp) : Timestamp :=
  mkTs (year ts) (month ts) 1.

(** [normalize_month]: [pd.to_datetime] leaves a timestamp as it is. *)
Definition normalize_month (ts : Timestamp) : Timestamp :=
  to_period_M_to_timestamp ts.

(** Chronological order. *)
Definition ts_compare (a b : Timestamp) : comparison :=
  match year a ?= year b with
  | Eq => match month a ?= month b with
          | Eq => day a ?= day b
          | c => c
          end
  | c => c
  end.

Definition ts_leb (a b : Timestamp) : bool :=
  match ts_compare a b with Gt => false | _ => true end.

Definition ts_eqb (a b : Timestamp) : bool :=
  match ts_compare a b with Eq => true | _ => false end.

(** ** Series *)

(** A pandas Series with a datetime index: its rows in storage order. *)
Definition Series : Type := list (Timestamp * pyfloat).

Definition values (s : Series) : list pyfloat := map snd s.

(** [Series.dropna()] *)
Definition dropna (s : Series) : Series :=
  filter (fun e => negb (is_nan (snd e))) s.

(** Sorting rows by a timestamp column, ascending.  pandas leaves the
    order of rows with equal timestamps to its sorting routine; here they
    keep their relative order.  The theorems on the estimator do not
    lean on that choice: they are stated for any chronological listing
    of the entries, or for entries with distinct timestamps. *)
Section SortBy.
Context {A : Type} (key : A -> Timestamp).

Fixpoint insert_by (e : A) (l : list A) : list A :=
  match l with
  | [] => [e]
  | x :: r => if ts_leb (key x) (key e) then x :: insert_by e r
              else e :: l
  end.

Definition sort_by (l : list A) : list A :=
  fold_left (fun acc e => insert_by e acc) l [].
End SortBy.

(** [Series.sort_index()] *)
Definition sort_index (s : Series) : Series := sort_by fst s.

(** [s[s.index.month == m]] *)
Definition select_month (m : Z) (s : Series) : Series :=
  filter (fun e => month (fst e) =? m) s.

(** [Series.tail(n)]: pandas returns no row for [n = 0] and
    [iloc[-n:]] otherwise, so a negative [n] drops the first [-n] rows. *)
Definition tail {A : Type} (n : Z) (l : list A) : list A :=
  if n =? 0 then []
  else if 0 <? n then skipn (length l - Z.to_nat n) l
  else skipn (Z.to_nat (- n)) l.

(** Sum of the finite values. *)
Fixpoint fsum (l : list pyfloat) : Q :=
  match l with
  | [] => 0%Q
  | Finite q :: r => (q + fsum r)%Q
  | NaN :: r => fsum r
  end.

Definition count_valid (l : list pyfloat) : nat :=
  length (filter (fun x => negb (is_nan x)) l).

(** [Series.mean()]: NaN entries are skipped, the mean of no entry is
    NaN. *)
Definition mean (s : Series) : pyfloat :=
  match count_valid (values s) with
  | O => NaN
  | S _ as n => Finite (fsum (values s) / inject_Z (Z.of_nat n))%Q
  end.

(** ** The estimator

    [astype(float)] changes nothing here: the values are floats already. *)

Definition seasonal_baseline (series_m : Series) (target_month : Timestamp)
    (k_years : Z) (fallback_last_n : Z) : pyfloat :=
  let s := sort_index (dropna series_m) in
  match s with
  | [] => zero
  | _ :: _ =>
      let target_month := normalize_month target_month in
      let m := month target_month in
      let same_month := select_month m s in
      if (1 <=? length same_month)%nat then
        let yhat := mean (tail k_years same_month) in
        py_max zero yhat
      else
        let yhat := mean (tail fallback_last_n s) in
        py_max zero yhat
  end.

(** Defaults of the signature. *)
Definition default_k_years : Z := 3.
Definition default_fallback_last_n : Z := 6.

Definition ts (y m : Z) : Timestamp := mkTs y m 1.
Definition fin (z : Z) : pyfloat := Finite (inject_Z z).

Definition pyfloat_eq (x y : pyfloat) : Prop :=
  match x, y with
  | Finite a, Finite b => (a == b)%Q
  | NaN, NaN => True
  | _, _ => False
  end.

(** ** The option filter

    A Python [str] is modelled by its UTF-8 bytes: substring search and
    the order of strings are the same on the bytes as on the code
    points.  [str.lower()] and [str.strip()] follow the Unicode tables of
    the interpreter, which are not part of the repository: they are
    parameters, with the two facts about them the code relies on
    (stripping the empty string gives the empty string; lower-casing
    never empties nor fills a string). *)

Class StrOps : Type := {
  lower : string -> string;
  strip : string -> string;
  strip_empty : strip EmptyString = EmptyString;
  lower_empty_iff : forall s, lower s = EmptyString <-> s = EmptyString
}.

(** The two functions on the ASCII range, where they can be written
    out.  Whitespace: TAB, LF, VT, FF, CR, the separators FS, GS, RS, US
    and the space. *)
Definition is_space (c : ascii) : bool :=
  let n := nat_of_ascii c in
  ((9 <=? n) && (n <=? 13) || (28 <=? n) && (n <=? 32))%nat.

Fixpoint lstrip (s : string) : string :=
  match s with
  | EmptyString => EmptyString
  | String c r => if is_space c then lstrip r else s
  end.

Fixpoint rev_string (s : string) : string :=
  match s with
  | EmptyString => EmptyString
  | String c r => (rev_string r ++ String c EmptyString)%string
  end.

Definition rstrip (s : string) : string := rev_string (lstrip (rev_string s)).

Definition ascii_strip (s : string) : string := rstrip (lstrip s).

Definition lower_char (c : ascii) : ascii :=
  let n := nat_of_ascii c in
  if ((65 <=? n) && (n <=? 90))%nat then ascii_of_nat (n + 32) else c.

Fixpoint ascii_lower (s : string) : string :=
  match s with
  | EmptyString => EmptyString
  | String c r => String (lower_char c) (ascii_lower r)
  end.

(** The ASCII functions as an instance, to run the code on ASCII
    strings. *)
Definition ascii_ops : StrOps.
Proof.
  refine {| lower := ascii_lower; strip := ascii_strip |}.
  - reflexivity.
  - intros s. destruct s; simpl; split; intros H;
      try reflexivity; discriminate H.
Defined.

(** [q in s]: [q] occurs in [s] at some position. *)
Fixpoint contains (q s : string) : bool :=
  prefix q s ||
  match s with
  | EmptyString => false
  | String _ r => contains q r
  end.

(** [l[:n]]: a negative [n] counts from the end. *)
Definition slice_to {A : Type} (n : Z) (l : list A) : list A :=
  if 0 <=? n then firstn (Z.to_nat n) l
  else firstn (length l - Z.to_nat (- n)) l.

(** [query or ""] *)
Definition or_empty (query : option string) : string :=
  match query with
  | Some s => s
  | None => EmptyString
  end.

(** [bool(q)] of a string. *)
Definition truthy (q : string) : bool :=
  match q with EmptyString => false | String _ _ => true end.

Definition safe_filter_options {ops : StrOps} (options : list string)
    (query : option string) (max_show : Z) : list string :=
  let q := lower (strip (or_empty query)) in
  if negb (truthy q) then slice_to max_show options
  else
    let out := filter (fun x => contains q (lower x)) options in
    slice_to max_show out.

Definition default_max_show : Z := 250.

(** ** The target month *)

Definition digit_of (c : ascii) : option Z :=
  let n := nat_of_ascii c in
  if ((48 <=? n) && (n <=? 57))%nat then Some (Z.of_nat n - 48) else None.

Definition num2 (a b : ascii) : option Z :=
  match digit_of a, digit_of b with
  | Some x, Some y => Some (10 * x + y)
  | _, _ => None
  end.

Definition num4 (a b c d : ascii) : option Z :=
  match num2 a b, num2 c d with
  | Some x, Some y => Some (100 * x + y)
  | _, _ => None
  end.

Definition is_leap (y : Z) : bool :=
  (y mod 4 =? 0) && (negb (y mod 100 =? 0) || (y mod 400 =? 0)).

Definition days_in_month (y m : Z) : Z :=
  if m =? 2 then (if is_leap y then 29 else 28)
  else if (m =? 4) || (m =? 6) || (m =? 9) || (m =? 11) then 30
  else 31.

(** The days a nanosecond-resolution [pd.Timestamp] can hold at
    midnight: 1677-09-22 to 2262-04-11. *)
Definition in_timestamp_range (y m d : Z) : bool :=
  ts_leb (mkTs 1677 9 22) (mkTs y m d) && ts_leb (mkTs y m d) (mkTs 2262 4 11).

Definition valid_date (y m d : Z) : bool :=
  in_timestamp_range y m d && (1 <=? m) && (m <=? 12) &&
  (1 <=? d) && (d <=? days_in_month y m).

(** The ISO 8601 calendar forms [YYYY-MM] and [YYYY-MM-DD] and the date
    they denote (day 1 when the day is absent), for the dates a
    timestamp can hold. *)
Definition iso_date (s : string) : option Timestamp :=
  match s with
  | String a (String b (String c (String d
      (String "-" (String e (String f rest)))))) =>
      match num4 a b c d, num2 e f with
      | Some y, Some m =>
          match rest with
          | EmptyString =>
              if valid_date y m 1 then Some (mkTs y m 1) else None
          | String "-" (String g (String h EmptyString)) =>
              match num2 g h with
              | Some dd =>
                  if valid_date y m dd then Some (mkTs y m dd) else None
              | None => None
              end
          | _ => None
          end
      | _, _ => None
      end
  | _ => None
  end.

(** [pd.to_datetime] on a string; [None] when it raises.  pandas is not
    part of the repository: the parser is a parameter, of which the code
    relies on one fact, that it reads the ISO 8601 calendar forms as the
    dates they denote.  What it does with any other string (its lenient
    rules may read it, or it raises) is left open. *)
Class DateParser : Type := {
  to_datetime : string -> option Timestamp;
  to_datetime_iso : forall s t, iso_date s = Some t -> to_datetime s = Some t
}.

(** The parser that reads the ISO forms and raises on everything else,
    to run the code. *)
Definition iso_parser : DateParser :=
  {| to_datetime := iso_date; to_datetime_iso := fun s t H => H |}.

(** [month_start_from_yyyymm]: [None] when the call raises. *)
Definition month_start_from_yyyymm {P : DateParser} (s : string)
    : option Timestamp :=
  option_map to_period_M_to_timestamp (to_datetime (s ++ "-01")%string).

(** The guarded call of the page (lines 107 to 111): a call that returns
    lets the view go on with the target month; a call that raises shows
    the error "Formato invalido" and stops the run. *)
Inductive TargetMonth : Type :=
| Proceed (mes_obj : Timestamp)
| FormatoInvalido.

Definition mes_obj {P : DateParser} (mes_str : string) : TargetMonth :=
  match month_start_from_yyyymm mes_str with
  | Some t => Proceed t
  | None => FormatoInvalido
  end.

Definition digit_char (d : Z) : ascii := ascii_of_nat (48 + Z.to_nat d).

(** [ts.strftime("%Y-%m")], for a four-digit year. *)
Definition strftime_Ym (t : Timestamp) : string :=
  let y := year t in
  let m := month t in
  String (digit_char (y / 1000 mod 10))
    (String (digit_char (y / 100 mod 10))
      (String (digit_char (y / 10 mod 10))
        (String (digit_char (y mod 10))
          (String "-"
            (String (digit_char (m / 10 mod 10))
              (String (digit_char (m mod 10)) EmptyString)))))).

(** ** The company-month aggregate *)

(** A row of the category-month panel. *)
Record CatRow : Type := mkCat {
  categoria_final : string;
  anio_mes : Timestamp;
  q_total_mes : pyfloat;
  ventas_total_mes : pyfloat;
  margen_total_mes : pyfloat
}.

(** A row of the grouped frame: the key and the three summed columns. *)
Record EmpRow : Type := mkEmp {
  e_anio_mes : Timestamp;
  e_q_total_mes : pyfloat;
  e_ventas_total_mes : pyfloat;
  e_margen_total_mes : pyfloat
}.

(** Adding a cell to a running group sum: a missing cell adds nothing. *)
Definition acc_add (acc x : pyfloat) : pyfloat :=
  match acc, x with
  | Finite a, Finite b => Finite (a + b)%Q
  | Finite a, NaN => Finite a
  | NaN, _ => x
  end.

Definition open_group (r : CatRow) : EmpRow :=
  mkEmp (anio_mes r) (acc_add zero (q_total_mes r))
        (acc_add zero (ventas_total_mes r)) (acc_add zero (margen_total_mes r)).

Definition add_row (g : EmpRow) (r : CatRow) : EmpRow :=
  mkEmp (e_anio_mes g) (acc_add (e_q_total_mes g) (q_total_mes r))
        (acc_add (e_ventas_total_mes g) (ventas_total_mes r))
        (acc_add (e_margen_total_mes g) (margen_total_mes r)).

(** One pass of the grouping: the row joins the group of its month, or
    opens a new one. *)
Fixpoint add_to_groups (r : CatRow) (groups : list EmpRow) : list EmpRow :=
  match groups with
  | [] => [open_group r]
  | g :: rest =>
      if ts_eqb (e_anio_mes g) (anio_mes r) then add_row g r :: rest
      else g :: add_to_groups r rest
  end.

(** [cat.groupby("anio_mes", as_index=False)[cols].sum()]: groups come
    out ordered by key. *)
Definition groupby_sum (cat : list CatRow) : list EmpRow :=
  sort_by e_anio_mes (fold_left (fun acc r => add_to_groups r acc) cat []).

(** [.sort_values("anio_mes")] *)
Definition sort_values (df : list EmpRow) : list EmpRow :=
  sort_by e_anio_mes df.

Definition dfE (cat : list CatRow) : list EmpRow :=
  sort_values (groupby_sum cat).

(** [dfE.set_index("anio_mes")[col]] *)
Definition column (col : EmpRow -> pyfloat) (df : list EmpRow) : Series :=
  map (fun g => (e_anio_mes g, col g)) df.

(** ** The displayed number *)

(** Rounding to the nearest integer, ties to the even one: what the
    format [.0f] does to the exact value of a float. *)
Definition round_half_even (q : Q) : Z :=
  let f := Qfloor q in
  match Qcompare (q - inject_Z f) (1 # 2) with
  | Lt => f
  | Gt => f + 1
  | Eq => if Z.even f then f else f + 1
  end.

(** The decimal digits of a natural number, most significant first. *)
Fixpoint digits_fuel (fuel : nat) (n : Z) (acc : list ascii) : list ascii :=
  match fuel with
  | O => acc
  | S f =>
      let acc' := digit_char (n mod 10) :: acc in
      if n <? 10 then acc' else digits_fuel f (n / 10) acc'
  end.

Definition digits_of (n : Z) : list ascii :=
  digits_fuel (S (Z.to_nat (Z.log2 n))) n [].

(** The grouping option [,] of the format: a comma between groups of
    three digits, counted from the right (the argument is reversed). *)
Fixpoint group3 (rev_digits : list ascii) : list ascii :=
  match rev_digits with
  | a :: b :: c :: ((_ :: _) as r) => a :: b :: c :: ","%char :: group3 r
  | _ => rev_digits
  end.

Definition with_thousands (digits : list ascii) : list ascii :=
  rev (group3 (rev digits)).

(** The floats [fmt_int] can receive: besides the numbers and NaN, the
    negative zero and the two infinities, which print on their own. *)
Inductive anyfloat : Type :=
| Number (q : Q)
| NegZero
| PosInf
| NegInf
| NotANumber.

Definition of_pyfloat (x : pyfloat) : anyfloat :=
  match x with
  | Finite q => Number q
  | NaN => NotANumber
  end.

(** [f"{x:,.0f}"] *)
Definition format_comma_0f (x : anyfloat) : string :=
  match x with
  | NotANumber => "nan"%string
  | PosInf => "inf"%string
  | NegInf => "-inf"%string
  | NegZero => "-0"%string
  | Number q =>
      if Qltb q 0
      then String "-" (string_of_list_ascii
                         (with_thousands (digits_of (round_half_even (- q)))))
      else string_of_list_ascii
             (with_thousands (digits_of (round_half_even q)))
  end.

(** [s.replace(a, b)] for one-character [a] and [b]. *)
Fixpoint replace_char (a b : ascii) (s : string) : string :=
  match s with
  | EmptyString => EmptyString
  | String c r =>
      String (if Ascii.eqb c a then b else c) (replace_char a b r)
  end.

Definition fmt_int (x : anyfloat) : string :=
  replace_char "," "." (format_comma_0f x).

(** ** The page: last month, default target, horizon *)

(** [col.max()] of a datetime column; [None] is the NaT of an empty
    column. *)
Fixpoint ts_max (l : list Timestamp) : option Timestamp :=
  match l with
  | [] => None
  | t :: r =>
      match ts_max r with
      | None => Some t
      | Some m => Some (if ts_leb t m then m else t)
      end
  end.

(** [x > y] on the maxima of columns: every comparison with NaT is
    false. *)
Definition nat_gt (x y : option Timestamp) : bool :=
  match x, y with
  | Some a, Some b => negb (ts_leb a b)
  | _, _ => false
  end.

(** Python's [max(a, b, c)]: a later argument wins only when it is
    greater, so a NaT in the first place stays and a NaT in a later
    place is passed over. *)
Definition max3 (a b c : option Timestamp) : option Timestamp :=
  let m := if nat_gt b a then b else a in
  if nat_gt c m then c else m.

(** [ts + pd.offsets.MonthBegin(1)]: the first day of the next month. *)
Definition add_month_begin (t : Timestamp) : Timestamp :=
  if month t =? 12 then mkTs (year t + 1) 1 1
  else mkTs (year t) (month t + 1) 1.

Definition default_next (last_month : Timestamp) : Timestamp :=
  to_period_M_to_timestamp (add_month_begin last_month).

(** The number of a monthly period, counted from a fixed month. *)
Definition month_ordinal (t : Timestamp) : Z := 12 * year t + (month t - 1).

(** [(mes_obj.to_period("M") - last_month.to_period("M")).n] *)
Definition horizon (mes_obj last_month : Timestamp) : Z :=
  month_ordinal mes_obj - month_ordinal last_month.

(** ** The page: loading a panel and the entity tabs

    The product tab and the client tab run the same code on two panels
    that differ in their column names; the code is written once, over
    the columns it reads.  Names are strings: a missing name is not
    modelled, so [dropna()] and [astype(str)] on the name column change
    nothing. *)

(** [sorted(names)] on strings: lexicographic on the characters. *)
Fixpoint insert_str (x : string) (l : list string) : list string :=
  match l with
  | [] => [x]
  | y :: r => if String.leb y x then y :: insert_str x r else x :: l
  end.

Definition sorted_str (l : list string) : list string :=
  fold_left (fun acc x => insert_str x acc) l [].

(** [Series.unique()]: the values in order of first appearance. *)
Fixpoint unique_acc (seen : list string) (l : list string) : list string :=
  match l with
  | [] => []
  | x :: r =>
      if existsb (String.eqb x) seen then unique_acc seen r
      else x :: unique_acc (x :: seen) r
  end.

Definition unique (l : list string) : list string := unique_acc [] l.

Section EntityTab.
Context {ops : StrOps} {Row : Type}.
Variable name : Row -> string.
Variable mes : Row -> Timestamp.
Variable with_mes : Timestamp -> Row -> Row.
Variables q_col v_col m_col : Row -> pyfloat.

(** The body of [load_parquet] after the read: the month column is
    normalised to the first day of the month. *)
Definition load_parquet (df : list Row) : list Row :=
  map (fun r => with_mes (to_period_M_to_timestamp (mes r)) r) df.

(** [sorted(panel[name].dropna().astype(str).unique().tolist())] *)
Definition entity_options (panel : list Row) : list string :=
  sorted_str (unique (map name panel)).

(** [panel[panel[name].astype(str) == str(sel)].copy().sort_values("anio_mes")] *)
Definition entity_frame (sel : string) (panel : list Row) : list Row :=
  sort_by mes (filter (fun r => String.eqb (name r) sel) panel).

(** [df.set_index("anio_mes")[col]] *)
Definition series_of (col : Row -> pyfloat) (df : list Row) : Series :=
  map (fun r => (mes r, col r)) df.

(** [df[cols].tail(24)] *)
Definition history (df : list Row) : list Row := tail 24 df.

(** What a tab shows for the selected entity. *)
Record TabView : Type := mkView {
  last_available : option Timestamp;
  yhat_q : pyfloat;
  yhat_v : pyfloat;
  yhat_m : pyfloat;
  shown_history : list Row
}.

Inductive TabResult : Type :=
| SinCoincidencias
| Shown (sel : string) (view : TabView).

(** A tab: [pick] is the position the user chooses in the select box. *)
Definition entity_tab (panel : list Row) (query : string) (pick : nat)
    (mes_obj : Timestamp) : TabResult :=
  let options := entity_options panel in
  let fil := safe_filter_options options (Some query) default_max_show in
  match fil with
  | [] => SinCoincidencias
  | first :: _ =>
      let sel := nth pick fil first in
      let df := entity_frame sel panel in
      Shown sel
        (mkView (ts_max (map mes df))
           (seasonal_baseline (series_of q_col df) mes_obj
              default_k_years default_fallback_last_n)
           (seasonal_baseline (series_of v_col df) mes_obj
              default_k_years default_fallback_last_n)
           (seasonal_baseline (series_of m_col df) mes_obj
              default_k_years default_fallback_last_n)
           (history df))
  end.
End EntityTab.

(** A row of the product-month panel. *)
Record ProdRow : Type := mkProd {
  producto_normalizado : string;
  p_anio_mes : Timestamp;
  p_q_total_mes : pyfloat;
  p_ventas_total_mes : pyfloat;
  p_margen_total_mes : pyfloat;
  clientes_distintos : Z
}.

Definition prod_with_mes (t : Timestamp) (r : ProdRow) : ProdRow :=
  mkProd (producto_normalizado r) t (p_q_total_mes r) (p_ventas_total_mes r)
         (p_margen_total_mes r) (clientes_distintos r).

(** A row of the client-month panel. *)
Record CliRow : Type := mkCli {
  cliente : string;
  c_anio_mes : Timestamp;
  c_q_total_mes : pyfloat;
  c_ventas_total_mes : pyfloat;
  c_margen_total_mes : pyfloat;
  productos_distintos : Z;
  categorias_distintas : Z
}.






(** [max(prod[mes].max(), cli[mes].max(), cat[mes].max())]; the maximum
    of an empty panel is NaT ([None]). *)
Definition last_month (prod : list ProdRow) (cli : list CliRow)
    (cat : list CatRow) : option Timestamp :=
  max3 (ts_max (map p_anio_mes prod)) (ts_max (map c_anio_mes cli))
       (ts_max (map anio_mes cat)).

(** ** Reference definitions

    The notions the specification speaks in, written independently of
    the code above; the theorems relate the two. *)

(** The entries of calendar month [m] among the present entries, in
    chronological order. *)
Definition month_entries (m : Z) (s : Series) : Series :=
  sort_index (select_month m (dropna s)).



(** The last [n] elements of a list. *)
Definition last_n {A : Type} (n : nat) (l : list A) : list A :=
  skipn (length l - n) l.




Definition floor_at_zero (q : Q) : Q := Qmax 0 q.

(** [min(k, count)] as a number of entries. *)
Definition min_count (k : Z) (count : nat) : nat :=
  Z.to_nat (Z.min k (Z.of_nat count)).

Definition ts_le (a b : Timestamp) : Prop :=
  year a < year b \/
  (year a = year b /\
   (month a < month b \/ (month a = month b /\ day a <= day b))).

Definition ts_lt (a b : Timestamp) : Prop :=
  year a < year b \/
  (year a = year b /\
   (month a < month b \/ (month a = month b /\ day a < day b))).

(** Rows ordered by their timestamp column. *)
Definition key_le {A : Type} (key : A -> Timestamp) (x y : A) : Prop :=
  ts_le (key x) (key y).

(** A query made of whitespace only (the empty query included). *)
Fixpoint whitespace_only (s : string) : bool :=
  match s with
  | EmptyString => true
  | String c r => is_space c && whitespace_only r
  end.

(** [q] is a substring of [s]. *)
Definition substring_of (q s : string) : Prop :=
  exists pre post, s = (pre ++ q ++ post)%string.

Definition is_digit (c : ascii) : bool :=
  match digit_of c with Some _ => true | None => false end.

(** The shape [YYYY-MM]: four digits, a hyphen, two digits. *)
Definition is_yyyymm (s : string) : bool :=
  match s with
  | String a (String b (String c (String d
      (String sep (String e (String f EmptyString)))))) =>
      is_digit a && is_digit b && is_digit c && is_digit d &&
      Ascii.eqb sep "-" && is_digit e && is_digit f
  | _ => false
  end.

(** The value of a digit character. *)
Definition digit_value (c : ascii) : Z := Z.of_nat (nat_of_ascii c) - 48.

(** The number a string of digits denotes. *)
Definition decimal (s : string) : Z :=
  fold_left (fun acc c => 10 * acc + digit_value c)
            (list_ascii_of_string s) 0.

Definition year_field (s : string) : Z := decimal (substring 0 4 s).
Definition month_field (s : string) : Z := decimal (substring 5 2 s).

(** The total of a measure over the category rows of one month. *)
Definition month_total (col : CatRow -> pyfloat) (t : Timestamp)
    (cat : list CatRow) : pyfloat :=
  Finite (fsum (map col (filter (fun r => ts_eqb (anio_mes r) t) cat))).

(** The groups hold one row per month of [rows]. *)
Definition keys_ok (rows : list CatRow) (groups : list EmpRow) : Prop :=
  NoDup (map e_anio_mes groups) /\
  (forall t, In t (map e_anio_mes groups) <-> In t (map anio_mes rows)).

(** Column [ecol] of the groups holds the month totals of column [col]. *)
Definition totals_ok (col : CatRow -> pyfloat) (ecol : EmpRow -> pyfloat)
    (rows : list CatRow) (groups : list EmpRow) : Prop :=
  forall g, In g groups ->
            pyfloat_eq (ecol g) (month_total col (e_anio_mes g) rows).

(** Two aggregate rows that agree on the month and, as numbers, on the
    three measures. *)
Definition emp_eq (a b : EmpRow) : Prop :=
  e_anio_mes a = e_anio_mes b /\
  pyfloat_eq (e_q_total_mes a) (e_q_total_mes b) /\
  pyfloat_eq (e_ventas_total_mes a) (e_ventas_total_mes b) /\
  pyfloat_eq (e_margen_total_mes a) (e_margen_total_mes b).

(** [l1] is [l2] with some elements left out, the others in their
    order. *)
Inductive Subseq {A : Type} : list A -> list A -> Prop :=
| Subseq_nil : Subseq [] []
| Subseq_skip x l1 l2 : Subseq l1 l2 -> Subseq l1 (x :: l2)
| Subseq_take x l1 l2 : Subseq l1 l2 -> Subseq (x :: l1) (x :: l2).

(** A query that [str.strip()] empties: empty or made of whitespace
    only. *)
Definition blank {ops : StrOps} (query : string) : Prop :=
  strip query = EmptyString.

(** An option the query selects: its lower-cased form contains the
    lower-cased, trimmed query. *)
Definition matches_query {ops : StrOps} (query x : string) : Prop :=
  substring_of (lower (strip query)) (lower x).


(** A list without its last [n] elements. *)
Definition drop_last {A : Type} (n : nat) (l : list A) : list A :=
  rev (skipn n (rev l)).

(** The entries of calendar month [m] that are not missing. *)
Definition in_month (m : Z) (e : Timestamp * pyfloat) : bool :=
  match snd e with
  | NaN => false
  | Finite _ => month (fst e) =? m
  end.


(** [l] lists the entries of [s] that satisfy [keep], all of them and
    nothing else, from the earliest to the latest. *)
Definition chronological_listing (keep : Timestamp * pyfloat -> bool)
    (s l : Series) : Prop :=
  Permutation l (filter keep s) /\ StronglySorted (key_le fst) l.


(** A month of the form [YYYY-MM] inside the range of timestamps:
    1677-10 to 2262-04. *)
Definition month_in_range (y m : Z) : Prop :=
  (1677 < y \/ (y = 1677 /\ 10 <= m)) /\ (y < 2262 \/ (y = 2262 /\ m <= 4)).

(** A string without one character. *)
Fixpoint remove_char (a : ascii) (s : string) : string :=
  match s with
  | EmptyString => EmptyString
  | String c r =>
      if Ascii.eqb c a then remove_char a r else String c (remove_char a r)
  end.

(** Every character is a digit or the dot. *)
Fixpoint digits_and_dots (s : string) : bool :=
  match s with
  | EmptyString => true
  | String c r => (is_digit c || Ascii.eqb c ".") && digits_and_dots r
  end.

Definition decimal_step (acc : Z) (c : ascii) : Z := 10 * acc + digit_value c.

Definition comma_to_dot (c : ascii) : ascii :=
  if Ascii.eqb c "," then "."%char else c.

Definition not_dot (c : ascii) : bool := negb (Ascii.eqb c ".").

Definition digit_or_dot (c : ascii) : bool := is_digit c || Ascii.eqb c ".".

(** A calendar month a timestamp can hold and [strftime] prints with a
    four-digit year. *)
Definition valid_month (t : Timestamp) : Prop :=
  1678 <= year t <= 2261 /\ 1 <= month t <= 12.

(** ** Scenarios of the specification *)

Example scenario_same_month :
  pyfloat_eq
    (seasonal_baseline
       [(ts 2023 2, fin 100); (ts 2024 2, fin 150); (ts 2025 2, fin 200);
        (ts 2025 6, fin 50)] (ts 2026 2) 3 6)
    (fin 150).
Proof. vm_compute. reflexivity. Qed.

Example scenario_fallback :
  pyfloat_eq
    (seasonal_baseline
       [(ts 2025 1, fin 10); (ts 2025 2, fin 20); (ts 2025 3, fin 30)]
       (ts 2025 12) 3 6)
    (fin 20).
Proof. vm_compute. reflexivity. Qed.

Example scenario_negative :
  seasonal_baseline [(ts 2024 2, fin (-50))] (ts 2025 2) 3 6 = zero.
Proof. vm_compute. reflexivity. Qed.

Example scenario_unsorted_with_gap :
  pyfloat_eq
    (seasonal_baseline
       [(ts 2025 2, fin 200); (ts 2023 2, fin 100); (ts 2024 2, NaN);
        (ts 2022 2, fin 60)] (ts 2026 2) 2 6)
    (fin 150).
Proof. vm_compute. reflexivity. Qed.

Example scenario_filter :
  safe_filter_options (ops := ascii_ops)
                      ["Arroz"; "Pollo"; "Harina"; "arandano"]%string
                      (Some "  AR "%string) 250
  = ["Arroz"; "Harina"; "arandano"]%string.
Proof. vm_compute. reflexivity. Qed.

Example scenario_aggregate :
  Forall2 emp_eq
    (dfE [mkCat "Abarrotes" (ts 2025 2) (fin 2) (fin 20) (fin 5);
          mkCat "Abarrotes" (ts 2025 1) (fin 1) (fin 10) (fin 3);
          mkCat "Bebidas" (ts 2025 1) (fin 4) NaN (fin 7)])
    [mkEmp (ts 2025 1) (fin 5) (fin 10) (fin 10);
     mkEmp (ts 2025 2) (fin 2) (fin 20) (fin 5)].
Proof. repeat constructor. Qed.

Example scenario_company_units :
  pyfloat_eq
    (seasonal_baseline
       (column e_q_total_mes
          (dfE [mkCat "Abarrotes" (ts 2025 2) (fin 2) (fin 20) (fin 5);
                mkCat "Abarrotes" (ts 2025 1) (fin 1) (fin 10) (fin 3);
                mkCat "Bebidas" (ts 2025 1) (fin 4) NaN (fin 7)]))
       (ts 2026 1) default_k_years default_fallback_last_n)
    (fin 5).
Proof. vm_compute. reflexivity. Qed.

Example scenario_negative_window :
  pyfloat_eq
    (seasonal_baseline
       [(ts 2023 2, fin 100); (ts 2024 2, fin 150); (ts 2025 2, fin 200)]
       (ts 2026 2) (-1) 6)
    (fin 175).
Proof. vm_compute. reflexivity. Qed.

Example scenario_negative_max_show :
  safe_filter_options (ops := ascii_ops)
                      ["Arroz"; "Pollo"; "Harina"]%string None (-1)
  = ["Arroz"; "Pollo"]%string.
Proof. reflexivity. Qed.

Example scenario_default_month :
  mes_obj (P := iso_parser) (strftime_Ym (mkTs 2026 2 1))
  = Proceed (mkTs 2026 2 1).
Proof. vm_compute. reflexivity. Qed.

(** * Properties *)

(** ** Chronological order *)

Lemma ts_leb_le a b : ts_leb a b = true <-> ts_le a b.
Proof.
  unfold ts_leb, ts_compare, ts_le.
  destruct (Z.compare_spec (year a) (year b));
    destruct (Z.compare_spec (month a) (month b));
    destruct (Z.compare_spec (day a) (day b));
    split; intros; try discriminate; try reflexivity; lia.
Qed.

Lemma ts_leb_gt a b : ts_leb a b = false <-> ts_lt b a.
Proof.
  unfold ts_leb, ts_compare, ts_lt.
  destruct (Z.compare_spec (year a) (year b));
    destruct (Z.compare_spec (month a) (month b));
    destruct (Z.compare_spec (day a) (day b));
    split; intros; try discriminate; try reflexivity; lia.
Qed.

Lemma ts_eqb_eq a b : ts_eqb a b = true <-> a = b.
Proof.
  unfold ts_eqb, ts_compare. destruct a as [ya ma da], b as [yb mb db]; simpl.
  destruct (Z.compare_spec ya yb);
    destruct (Z.compare_spec ma mb);
    destruct (Z.compare_spec da db);
    split; intros E; try discriminate; try reflexivity;
    try (inversion E; lia); subst; reflexivity.
Qed.

Lemma ts_eqb_refl a : ts_eqb a a = true.
Proof. apply ts_eqb_eq. reflexivity. Qed.

Lemma ts_le_trans a b c : ts_le a b -> ts_le b c -> ts_le a c.
Proof. unfold ts_le. lia. Qed.

Lemma ts_lt_le a b : ts_lt a b -> ts_le a b.
Proof. unfold ts_lt, ts_le. lia. Qed.

Lemma ts_lt_le_trans a b c : ts_lt a b -> ts_le b c -> ts_lt a c.
Proof. unfold ts_lt, ts_le. lia. Qed.

Lemma ts_le_antisym a b : ts_le a b -> ts_le b a -> a = b.
Proof.
  destruct a, b; unfold ts_le; simpl; intros.
  f_equal; lia.
Qed.

(** ** The stable sort *)

Section SortByFacts.
Context {A : Type} (key : A -> Timestamp).

Lemma insert_by_perm e l : Permutation (insert_by key e l) (e :: l).
Proof.
  induction l as [|x r IH]; simpl.
  - reflexivity.
  - destruct (ts_leb (key x) (key e)).
    + rewrite IH. apply perm_swap.
    + reflexivity.
Qed.

Lemma fold_insert_perm l acc :
  Permutation (fold_left (fun a e => insert_by key e a) l acc) (l ++ acc).
Proof.
  revert acc. induction l as [|x r IH]; intros acc; simpl.
  - reflexivity.
  - rewrite IH. rewrite insert_by_perm. symmetry. apply Permutation_middle.
Qed.

Lemma sort_by_perm l : Permutation (sort_by key l) l.
Proof.
  unfold sort_by. rewrite fold_insert_perm, app_nil_r. reflexivity.
Qed.

Lemma insert_by_sorted e l :
  StronglySorted (key_le key) l -> StronglySorted (key_le key) (insert_by key e l).
Proof.
  induction 1 as [|x r Hr IH Hx]; simpl.
  - repeat constructor.
  - destruct (ts_leb (key x) (key e)) eqn:E.
    + constructor; [exact IH|].
      rewrite insert_by_perm.
      constructor; [apply ts_leb_le; exact E | exact Hx].
    + apply ts_leb_gt in E.
      constructor; [constructor; assumption|].
      constructor; [apply ts_lt_le; exact E|].
      eapply Forall_impl; [|exact Hx].
      intros y Hy. unfold key_le in *.
      eapply ts_le_trans; [apply ts_lt_le; exact E | exact Hy].
Qed.

Lemma fold_insert_sorted l acc :
  StronglySorted (key_le key) acc ->
  StronglySorted (key_le key) (fold_left (fun a e => insert_by key e a) l acc).
Proof.
  revert acc. induction l as [|x r IH]; intros acc H; simpl.
  - exact H.
  - apply IH, insert_by_sorted, H.
Qed.

Lemma sort_by_sorted l : StronglySorted (key_le key) (sort_by key l).
Proof. apply fold_insert_sorted. constructor. Qed.

(** An element older than every row goes to the front. *)
Lemma insert_by_front e l :
  Forall (fun x => ts_lt (key e) (key x)) l -> insert_by key e l = e :: l.
Proof.
  destruct 1 as [|x r Hx _]; simpl.
  - reflexivity.
  - apply ts_leb_gt in Hx. rewrite Hx. reflexivity.
Qed.

(** Selecting rows commutes with inserting into a sorted frame. *)
Lemma filter_insert_by (p : A -> bool) e l :
  StronglySorted (key_le key) l ->
  filter p (insert_by key e l) =
  if p e then insert_by key e (filter p l) else filter p l.
Proof.
  induction 1 as [|x r Hr IH Hx].
  - simpl. destruct (p e); reflexivity.
  - cbn [insert_by]. destruct (ts_leb (key x) (key e)) eqn:E.
    + cbn [filter]. rewrite IH.
      destruct (p x) eqn:Px, (p e) eqn:Pe; cbn [insert_by];
        rewrite ?E; reflexivity.
    + apply ts_leb_gt in E.
      assert (F : Forall (fun y => ts_lt (key e) (key y)) (filter p (x :: r))).
      { apply Forall_forall. intros y Hy. apply filter_In in Hy.
        destruct Hy as [Hy _]. destruct Hy as [<-|Hy]; [exact E|].
        rewrite Forall_forall in Hx.
        eapply ts_lt_le_trans; [exact E | apply Hx, Hy]. }
      rewrite (insert_by_front _ _ F).
      change (filter p (e :: x :: r))
        with (if p e then e :: filter p (x :: r) else filter p (x :: r)).
      reflexivity.
Qed.

Lemma filter_fold_insert (p : A -> bool) l acc :
  StronglySorted (key_le key) acc ->
  filter p (fold_left (fun a e => insert_by key e a) l acc) =
  fold_left (fun a e => insert_by key e a) (filter p l) (filter p acc).
Proof.
  revert acc. induction l as [|x r IH]; intros acc H; simpl.
  - reflexivity.
  - rewrite IH by (apply insert_by_sorted, H).
    rewrite filter_insert_by by exact H.
    destruct (p x); reflexivity.
Qed.

Lemma filter_sort_by (p : A -> bool) l :
  filter p (sort_by key l) = sort_by key (filter p l).
Proof. unfold sort_by. rewrite filter_fold_insert; [reflexivity|constructor]. Qed.

(** Sorting a sorted frame changes nothing. *)
Lemma insert_by_last e l :
  Forall (fun x => ts_le (key x) (key e)) l ->
  insert_by key e l = l ++ [e].
Proof.
  induction 1 as [|x r Hx _ IH]; simpl.
  - reflexivity.
  - apply ts_leb_le in Hx. rewrite Hx, IH. reflexivity.
Qed.

Lemma fold_insert_sorted_id l acc :
  StronglySorted (key_le key) (acc ++ l) ->
  fold_left (fun a e => insert_by key e a) l acc = acc ++ l.
Proof.
  revert acc. induction l as [|x r IH]; intros acc H; simpl.
  - rewrite app_nil_r. reflexivity.
  - assert (H' : StronglySorted (key_le key) ((acc ++ [x]) ++ r))
      by (rewrite <- app_assoc; exact H).
    rewrite insert_by_last.
    + rewrite IH by exact H'. rewrite <- app_assoc. reflexivity.
    + clear IH H'. induction acc as [|a acc IHa]; [constructor|].
      simpl in H. inversion H as [|? ? Hs Hf]; subst.
      constructor.
      * rewrite Forall_forall in Hf. apply Hf.
        apply in_or_app. right. left. reflexivity.
      * apply IHa, Hs.
Qed.

Lemma sort_by_sorted_id l : StronglySorted (key_le key) l -> sort_by key l = l.
Proof. intros H. unfold sort_by. rewrite fold_insert_sorted_id; auto. Qed.
End SortByFacts.

(** ** Means and the floor *)









Lemma py_max_zero_finite x : py_max zero (Finite x) = Finite (floor_at_zero x).
Proof.
  unfold py_max, py_gt, zero, Qltb, floor_at_zero, Qmax, GenericMinMax.gmax.
  destruct (Qle_bool x 0) eqn:E; simpl.
  - apply Qle_bool_iff in E.
    destruct (Qcompare_spec 0 x) as [H|H|H]; try reflexivity.
    exfalso. apply (Qlt_irrefl 0). eapply Qlt_le_trans; eauto.
  - destruct (Qcompare_spec 0 x) as [H|H|H]; try reflexivity.
    + assert (Qle_bool x 0 = true)
        by (apply Qle_bool_iff; rewrite H; apply Qle_refl).
      congruence.
    + assert (Qle_bool x 0 = true)
        by (apply Qle_bool_iff, Qlt_le_weak, H).
      congruence.
Qed.

Lemma floor_at_zero_nonneg x : (0 <= floor_at_zero x)%Q.
Proof. apply Q.le_max_l. Qed.

Lemma py_max_zero_nonneg y :
  exists q, py_max zero y = Finite q /\ (0 <= q)%Q.
Proof.
  destruct y as [x|].
  - rewrite py_max_zero_finite. eexists. split; [reflexivity|].
    apply floor_at_zero_nonneg.
  - exists 0%Q. split; [reflexivity | apply Qle_refl].
Qed.

(** ** [tail] *)

Lemma tail_pos {A : Type} (n : Z) (l : list A) :
  0 < n -> tail n l = last_n (min_count n (length l)) l.
Proof.
  intros H. unfold tail, last_n, min_count.
  destruct (Z.eqb_spec n 0); [lia|].
  destruct (Z.ltb_spec 0 n); [|lia].
  f_equal. lia.
Qed.

Lemma last_n_length {A : Type} (n : nat) (l : list A) :
  length (last_n n l) = Nat.min n (length l).
Proof. unfold last_n. rewrite length_skipn. lia. Qed.



(** ** The two branches of the estimator *)

Lemma select_month_sorted m s :
  select_month m (sort_index (dropna s)) = month_entries m s.
Proof. unfold select_month, month_entries, sort_index. apply filter_sort_by. Qed.

Lemma sort_index_nil s : sort_index s = [] -> s = [].
Proof.
  intros H. apply Permutation_nil. rewrite <- H.
  apply sort_by_perm.
Qed.


Lemma seasonal_baseline_branch_same s target k f :
  month_entries (month target) s <> [] ->
  seasonal_baseline s target k f =
  py_max zero (mean (tail k (month_entries (month target) s))).
Proof.
  intros Hne. unfold seasonal_baseline.
  destruct (sort_index (dropna s)) eqn:Es.
  - exfalso. apply Hne. apply sort_index_nil in Es.
    unfold month_entries. rewrite Es. reflexivity.
  - rewrite <- Es, select_month_sorted. simpl.
    destruct (month_entries (month target) s); [congruence|]. reflexivity.
Qed.



Lemma filter_no_match {A : Type} (p : A -> bool) (l : list A) :
  (forall x, In x l -> p x = false) -> filter p l = [].
Proof.
  induction l as [|x r IH]; intros H; simpl; [reflexivity|].
  rewrite (H x) by (left; reflexivity).
  apply IH. intros y Hy. apply H. right. exact Hy.
Qed.


Lemma select_month_dropna m s :
  select_month m (dropna s) = filter (in_month m) s.
Proof.
  unfold select_month, dropna. induction s as [|[t [q|]] r IH]; simpl.
  - reflexivity.
  - unfold in_month at 1. simpl. destruct (month t =? m); rewrite IH; reflexivity.
  - exact IH.
Qed.

Lemma month_entries_listing m s :
  chronological_listing (in_month m) s (month_entries m s).
Proof.
  unfold chronological_listing, month_entries, sort_index.
  rewrite select_month_dropna. split; [apply sort_by_perm | apply sort_by_sorted].
Qed.


Lemma sorted_perm_unique {A : Type} (key : A -> Timestamp) (l1 l2 : list A) :
  StronglySorted (key_le key) l1 -> StronglySorted (key_le key) l2 ->
  Permutation l1 l2 -> NoDup (map key l1) -> l1 = l2.
Proof.
  intros S1. revert l2. induction S1 as [|x r1 S1 IH H1]; intros l2 S2 P Hnd.
  - apply Permutation_nil in P. congruence.
  - destruct l2 as [|y r2].
    + symmetry in P. apply Permutation_nil in P. discriminate.
    + inversion S2 as [|? ? S2' H2]; subst.
      simpl in Hnd. inversion Hnd as [|? ? Hnx Hnr]; subst.
      assert (Hy : In y (x :: r1))
        by (apply (Permutation_in _ (Permutation_sym P)); left; reflexivity).
      assert (Hx : In x (y :: r2))
        by (apply (Permutation_in _ P); left; reflexivity).
      assert (Exy : x = y).
      { destruct Hy as [E|Hy]; [exact E|].
        destruct Hx as [E|Hx]; [congruence|].
        rewrite Forall_forall in H1, H2.
        assert (K : key x = key y)
          by (apply ts_le_antisym; [apply H1, Hy | apply H2, Hx]).
        exfalso. apply Hnx. rewrite K. apply in_map, Hy. }
      subst y. f_equal. apply IH; [exact S2' | | exact Hnr].
      apply Permutation_cons_inv in P. exact P.
Qed.




Lemma listing_nonempty keep s l e :
  chronological_listing keep s l -> In e s -> keep e = true -> l <> [].
Proof.
  intros [P _] He Hk E. subst l.
  assert (H : In e (filter keep s)) by (apply filter_In; auto).
  apply (Permutation_in _ (Permutation_sym P)) in H. exact H.
Qed.





(** C3.  Whatever the series, the target month and the two window
    parameters, [seasonal_baseline] returns a number that is at least
    zero (never NaN, never negative): the floor applies in the same-month
    branch and in the fallback branch alike, and a series whose only
    entry is -50 in the month of the target yields exactly zero. *)
Theorem seasonal_baseline_nonneg
    (s : Series) (target : Timestamp) (k_years fallback_last_n : Z) :
  (exists q, seasonal_baseline s target k_years fallback_last_n = Finite q
             /\ (0 <= q)%Q)
  /\ seasonal_baseline [(ts 2024 2, fin (-50))] (ts 2025 2)
       default_k_years default_fallback_last_n = zero.
Proof.
  split; [|reflexivity].
  unfold seasonal_baseline.
  destruct (sort_index (dropna s)) as [|a r].
  - exists 0%Q. split; [reflexivity | apply Qle_refl].
  - cbv zeta.
    destruct (1 <=? length (select_month _ (a :: r)))%nat;
      apply py_max_zero_nonneg.
Qed.

(** C4.  A series that is empty once its missing entries are dropped
    yields exactly 0.0, for every target month. *)
Theorem seasonal_baseline_empty
    (s : Series) (target : Timestamp) (k_years fallback_last_n : Z) :
  dropna s = [] ->
  seasonal_baseline s target k_years fallback_last_n = Finite 0.
Proof.
  intros H. unfold seasonal_baseline. rewrite H. reflexivity.
Qed.

Lemma seasonal_baseline_empty_witness :
  seasonal_baseline [(ts 2024 2, NaN); (ts 2024 3, NaN)] (ts 2025 2) 3 6
  = Finite 0.
Proof.
  apply (seasonal_baseline_empty [(ts 2024 2, NaN); (ts 2024 3, NaN)]).
  reflexivity.
Defined.

(** C5.  The same-month selection looks at the month number only.  There
    is a series with an entry in the calendar month of the target but in
    a later year than the target, and that entry is among the
    chronologically last [k_years] same-month entries whose mean is
    returned: with 100 in 2024-02 and 300 in 2027-02 the projection for
    2026-02 is 200. *)
Theorem seasonal_baseline_takes_future_entry :
  exists (s : Series) (target : Timestamp) (e : Timestamp * pyfloat),
    let averaged :=
      tail default_k_years
        (select_month (month (normalize_month target))
                      (sort_index (dropna s))) in
    In e s /\
    month (fst e) = month target /\
    year target < year (fst e) /\
    In e averaged /\
    seasonal_baseline s target default_k_years default_fallback_last_n
      = py_max zero (mean averaged) /\
    pyfloat_eq
      (seasonal_baseline s target default_k_years default_fallback_last_n)
      (fin 200).
Proof.
  exists [(ts 2024 2, fin 100); (ts 2027 2, fin 300)], (ts 2026 2),
         (ts 2027 2, fin 300).
  cbv zeta. split; [|split; [|split; [|split; [|split]]]].
  - simpl. auto.
  - reflexivity.
  - simpl. lia.
  - vm_compute. auto.
  - reflexivity.
  - vm_compute. reflexivity.
Qed.

(** ** The option filter *)

Lemma lstrip_whitespace s : whitespace_only s = true -> lstrip s = EmptyString.
Proof.
  induction s as [|c r IH]; simpl; [reflexivity|].
  destruct (is_space c); simpl; [exact IH | discriminate].
Qed.

Lemma ascii_strip_whitespace s :
  whitespace_only s = true -> ascii_strip s = EmptyString.
Proof.
  intros H. unfold ascii_strip, rstrip. rewrite (lstrip_whitespace s H).
  reflexivity.
Qed.

Lemma lstrip_head s :
  whitespace_only s = false ->
  exists c r, lstrip s = String c r /\ is_space c = false.
Proof.
  induction s as [|c r IH]; simpl; [discriminate|].
  destruct (is_space c) eqn:E; simpl.
  - exact IH.
  - intros _. exists c, r. split; [reflexivity | exact E].
Qed.

Lemma lstrip_keeps_last a c :
  is_space c = false -> lstrip (a ++ String c EmptyString)%string <> EmptyString.
Proof.
  intros Hc. induction a as [|x a IH]; simpl.
  - rewrite Hc. discriminate.
  - destruct (is_space x); [exact IH | discriminate].
Qed.

Lemma rev_string_nonempty s : s <> EmptyString -> rev_string s <> EmptyString.
Proof.
  destruct s as [|c r]; [congruence|]. intros _. simpl.
  destruct (rev_string r); discriminate.
Qed.

Lemma ascii_strip_nonempty s :
  whitespace_only s = false -> ascii_strip s <> EmptyString.
Proof.
  intros H. destruct (lstrip_head s H) as [c [r [E Hc]]].
  unfold ascii_strip, rstrip. rewrite E. simpl.
  apply rev_string_nonempty, lstrip_keeps_last, Hc.
Qed.

(** On the ASCII instance, the blank queries are the strings made of
    ASCII whitespace. *)
Lemma ascii_blank_iff s :
  blank (ops := ascii_ops) s <-> whitespace_only s = true.
Proof.
  unfold blank. simpl. split.
  - intros E. destruct (whitespace_only s) eqn:W; [reflexivity|].
    exfalso. exact (ascii_strip_nonempty s W E).
  - apply ascii_strip_whitespace.
Qed.

Lemma blank_falsy {ops : StrOps} query :
  blank query -> truthy (lower (strip query)) = false.
Proof.
  unfold blank. intros ->.
  rewrite (proj2 (lower_empty_iff EmptyString) eq_refl). reflexivity.
Qed.

Lemma nonblank_truthy {ops : StrOps} query :
  ~ blank query -> truthy (lower (strip query)) = true.
Proof.
  unfold blank. intros H.
  destruct (lower (strip query)) eqn:E; [|reflexivity].
  exfalso. apply H. apply lower_empty_iff, E.
Qed.

Lemma prefix_spec q s :
  prefix q s = true <-> exists post, s = (q ++ post)%string.
Proof.
  revert s. induction q as [|c q IH]; intros s.
  - split; [intros _; exists s; reflexivity|]. intros _. destruct s; reflexivity.
  - destruct s as [|d s]; simpl.
    + split; [discriminate | intros [post E]; discriminate].
    + destruct (Ascii.ascii_dec c d) as [->|N].
      * rewrite IH. split; intros [post E]; exists post.
        -- rewrite E. reflexivity.
        -- injection E. auto.
      * split; [discriminate|]. intros [post E]. injection E. congruence.
Qed.

Lemma contains_spec q s : contains q s = true <-> substring_of q s.
Proof.
  unfold substring_of. induction s as [|d s IH]; cbn [contains].
  - rewrite orb_false_r, prefix_spec. split.
    + intros [post E]. exists EmptyString, post. exact E.
    + intros [pre [post E]]. destruct pre; [|discriminate].
      exists post. exact E.
  - rewrite orb_true_iff, IH, prefix_spec. split.
    + intros [[post E]|[pre [post E]]].
      * exists EmptyString, post. exact E.
      * exists (String d pre), post. simpl. rewrite E. reflexivity.
    + intros [pre [post E]]. destruct pre as [|c pre]; simpl in E.
      * left. exists post. exact E.
      * right. injection E as _ E. exists pre, post. exact E.
Qed.

Lemma slice_to_nonneg {A : Type} (n : Z) (l : list A) :
  0 <= n -> slice_to n l = firstn (Z.to_nat n) l.
Proof.
  intros H. unfold slice_to. destruct (Z.leb_spec 0 n); [reflexivity | lia].
Qed.

Lemma slice_to_neg {A : Type} (n : Z) (l : list A) :
  n < 0 -> slice_to n l = drop_last (Z.to_nat (- n)) l.
Proof.
  intros H. unfold slice_to, drop_last.
  destruct (Z.leb_spec 0 n); [lia|].
  rewrite skipn_rev, rev_involutive. reflexivity.
Qed.

Lemma filter_blank_query {ops : StrOps} options query max_show :
  blank query ->
  safe_filter_options options (Some query) max_show
  = slice_to max_show options.
Proof.
  intros B. unfold safe_filter_options. simpl or_empty.
  rewrite (blank_falsy query B). reflexivity.
Qed.

Lemma filter_nonblank_query {ops : StrOps} options query max_show :
  ~ blank query ->
  safe_filter_options options (Some query) max_show
  = slice_to max_show
      (filter (fun x => contains (lower (strip query)) (lower x)) options).
Proof.
  intros B. unfold safe_filter_options. simpl or_empty.
  rewrite (nonblank_truthy query B). reflexivity.
Qed.

(** C7 (as the code has it).  With a query that is empty or made of
    whitespace only, whatever [str.strip()] and [str.lower()] take for
    whitespace and case, the option filter returns the first [max_show]
    options, unchanged and in order, for every [max_show] that is not
    negative; for a negative [max_show] it returns the options without
    their last [-max_show] ones. *)
Theorem safe_filter_options_blank_query {ops : StrOps}
    (options : list string) (query : string) (max_show : Z) :
  blank query ->
  (0 <= max_show ->
   safe_filter_options options (Some query) max_show
   = firstn (Z.to_nat max_show) options)
  /\ (max_show < 0 ->
      safe_filter_options options (Some query) max_show
      = drop_last (Z.to_nat (- max_show)) options).
Proof.
  intros B. rewrite (filter_blank_query options query max_show B).
  split; intros H; [apply slice_to_nonneg | apply slice_to_neg]; exact H.
Qed.

Lemma safe_filter_options_blank_query_witness :
  safe_filter_options (ops := ascii_ops) ["Arroz"; "Pollo"; "Harina"]%string
                      (Some "  "%string) 2
  = ["Arroz"; "Pollo"]%string.
Proof.
  refine (proj1 (safe_filter_options_blank_query (ops := ascii_ops)
                   ["Arroz"; "Pollo"; "Harina"]%string "  "%string 2 _) _).
  - reflexivity.
  - lia.
Defined.

(** C7 (counterexample).  With the empty query and [max_show = -1] the
    filter returns two of three options, whatever the string functions:
    not "the first [max_show] elements", of which there are none. *)
Lemma safe_filter_options_blank_query_negative :
  (forall ops : StrOps,
     safe_filter_options (ops := ops) ["Arroz"; "Pollo"; "Harina"]%string
                         (Some EmptyString) (-1)
     = ["Arroz"; "Pollo"]%string)
  /\ ["Arroz"; "Pollo"]%string
     <> firstn (Z.to_nat (-1)) ["Arroz"; "Pollo"; "Harina"]%string.
Proof.
  split; [|discriminate].
  intros ops. rewrite filter_blank_query; [reflexivity|].
  unfold blank. apply strip_empty.
Qed.

(** C8 (as the code has it).  With a query that is not blank, whatever
    [str.strip()] and [str.lower()] take for whitespace and case, the
    matches are the options whose lower-cased form contains the
    lower-cased, trimmed query as a substring, in their original order.
    For every [max_show] that is not negative the filter returns the
    first [max_show] matches, so at most [max_show] elements; for a
    negative [max_show] it returns the matches without their last
    [-max_show] ones.  The function is total, and no option or no match
    gives the empty list. *)
Theorem safe_filter_options_matches {ops : StrOps}
    (options : list string) (query : string) (max_show : Z) :
  ~ blank query ->
  let q := lower (strip query) in
  let matches := filter (fun x => contains q (lower x)) options in
  let result := safe_filter_options options (Some query) max_show in
  Subseq matches options
  /\ (forall x, In x matches <-> In x options /\ substring_of q (lower x))
  /\ (0 <= max_show ->
      result = firstn (Z.to_nat max_show) matches
      /\ Z.of_nat (length result) <= max_show)
  /\ (max_show < 0 -> result = drop_last (Z.to_nat (- max_show)) matches)
  /\ (options = [] -> result = [])
  /\ ((forall x, In x options -> ~ substring_of q (lower x)) -> result = []).
Proof.
  intros B q matches result.
  assert (E : result = slice_to max_show matches)
    by (apply filter_nonblank_query, B).
  assert (Hnil : matches = [] -> result = []).
  { intros M. rewrite E, M. unfold slice_to.
    destruct (0 <=? max_show); apply firstn_nil. }
  split; [|split; [|split; [|split; [|split]]]].
  - unfold matches. clear. induction options as [|x r IH]; simpl.
    + constructor.
    + destruct (contains q (lower x)); constructor; exact IH.
  - intros x. unfold matches. rewrite filter_In, contains_spec. reflexivity.
  - intros Hn. rewrite E, slice_to_nonneg by exact Hn.
    split; [reflexivity|]. rewrite length_firstn. lia.
  - intros Hn. rewrite E. apply slice_to_neg, Hn.
  - intros O. apply Hnil. unfold matches. rewrite O. reflexivity.
  - intros Hno. apply Hnil. apply filter_no_match.
    intros x Hx. destruct (contains q (lower x)) eqn:C; [|reflexivity].
    exfalso. apply (Hno x Hx). apply contains_spec, C.
Qed.

Lemma safe_filter_options_matches_witness :
  safe_filter_options (ops := ascii_ops)
                      ["Arroz"; "Pollo"; "HARINA"; "arandano"]%string
                      (Some "  aR "%string) 2
  = ["Arroz"; "HARINA"]%string.
Proof.
  refine (proj1 (proj1 (proj2 (proj2
    (safe_filter_options_matches (ops := ascii_ops)
       ["Arroz"; "Pollo"; "HARINA"; "arandano"]%string "  aR "%string 2 _)))
    _)).
  - unfold blank. simpl. discriminate.
  - lia.
Defined.

(** C8 (counterexample).  On ASCII strings, the query ["ar"] with
    [max_show = -1] returns two of the three matches: more than
    [max_show] elements. *)
Lemma safe_filter_options_matches_negative :
  safe_filter_options (ops := ascii_ops)
                      ["Arroz"; "Pollo"; "Harina"; "arandano"]%string
                      (Some "ar"%string) (-1)
  = ["Arroz"; "Harina"]%string
  /\ ~ (Z.of_nat (length (safe_filter_options (ops := ascii_ops)
                            ["Arroz"; "Pollo"; "Harina"; "arandano"]%string
                            (Some "ar"%string) (-1))) <= -1).
Proof. split; [reflexivity | intros H; apply H; reflexivity]. Qed.



(** ** The company-month aggregate *)

Lemma fsum_app l1 l2 : (fsum (l1 ++ l2) == fsum l1 + fsum l2)%Q.
Proof.
  induction l1 as [|[q|] r IH]; simpl.
  - ring.
  - rewrite IH. ring.
  - exact IH.
Qed.

Lemma acc_add_total acc x a :
  pyfloat_eq acc (Finite a) ->
  pyfloat_eq (acc_add acc x) (Finite (a + fsum [x])).
Proof.
  destruct acc as [b|]; simpl; [|contradiction].
  intros E. destruct x as [c|]; simpl; rewrite E; ring.
Qed.

Lemma add_to_groups_keys r groups :
  map e_anio_mes (add_to_groups r groups) =
  if existsb (fun g => ts_eqb (e_anio_mes g) (anio_mes r)) groups
  then map e_anio_mes groups
  else map e_anio_mes groups ++ [anio_mes r].
Proof.
  induction groups as [|g rest IH]; simpl; [reflexivity|].
  destruct (ts_eqb (e_anio_mes g) (anio_mes r)); simpl; [reflexivity|].
  rewrite IH. destruct (existsb _ rest); reflexivity.
Qed.

Lemma existsb_key r groups :
  existsb (fun g => ts_eqb (e_anio_mes g) (anio_mes r)) groups = true
  <-> In (anio_mes r) (map e_anio_mes groups).
Proof.
  rewrite existsb_exists, in_map_iff. split.
  - intros [g [Hg E]]. apply ts_eqb_eq in E. exists g. auto.
  - intros [g [E Hg]]. exists g. split; [exact Hg|]. apply ts_eqb_eq, E.
Qed.

Lemma add_to_groups_In r groups g' :
  NoDup (map e_anio_mes groups) ->
  In g' (add_to_groups r groups) ->
  (In g' groups /\ e_anio_mes g' <> anio_mes r)
  \/ (exists g, In g groups /\ e_anio_mes g = anio_mes r /\ g' = add_row g r)
  \/ (g' = open_group r /\ ~ In (anio_mes r) (map e_anio_mes groups)).
Proof.
  induction groups as [|g rest IH]; simpl; intros Hnd Hin.
  - destruct Hin as [<-|[]]. right. right. split; [reflexivity | tauto].
  - inversion Hnd as [|? ? Hg Hrest]; subst.
    destruct (ts_eqb (e_anio_mes g) (anio_mes r)) eqn:E.
    + apply ts_eqb_eq in E. destruct Hin as [<-|Hin].
      * right. left. exists g. auto.
      * left. split; [right; exact Hin|].
        intros E'. apply Hg. rewrite E, <- E'. apply in_map, Hin.
    + assert (N : e_anio_mes g <> anio_mes r).
      { intros E'. apply ts_eqb_eq in E'. congruence. }
      destruct Hin as [<-|Hin].
      * left. split; [left; reflexivity | exact N].
      * destruct (IH Hrest Hin) as [[H1 H2]|[[g0 [H1 [H2 H3]]]|[H1 H2]]].
        -- left. split; [right; exact H1 | exact H2].
        -- right. left. exists g0. auto.
        -- right. right. split; [exact H1|]. intros [H|H]; auto.
Qed.

Lemma keys_ok_step rows groups r :
  keys_ok rows groups -> keys_ok (rows ++ [r]) (add_to_groups r groups).
Proof.
  intros [Hnd Hk]. unfold keys_ok. rewrite add_to_groups_keys.
  destruct (existsb _ groups) eqn:E.
  - apply existsb_key in E. split; [exact Hnd|].
    intros t. rewrite map_app, in_app_iff, Hk. simpl.
    split; [auto|]. intros [H|[<-|[]]]; [exact H | apply Hk, E].
  - assert (N : ~ In (anio_mes r) (map e_anio_mes groups)).
    { intros H. apply existsb_key in H. congruence. }
    split.
    + rewrite <- (rev_involutive (_ ++ _)). apply NoDup_rev.
      rewrite rev_app_distr. simpl. constructor.
      * rewrite <- in_rev. exact N.
      * apply NoDup_rev, Hnd.
    + intros t. rewrite !map_app, !in_app_iff, Hk. reflexivity.
Qed.

Lemma filter_month_absent t rows :
  ~ In t (map anio_mes rows) ->
  filter (fun r => ts_eqb (anio_mes r) t) rows = [].
Proof.
  intros H. apply filter_no_match. intros x Hx.
  destruct (ts_eqb (anio_mes x) t) eqn:E; [|reflexivity].
  exfalso. apply H. apply ts_eqb_eq in E. rewrite <- E. apply in_map, Hx.
Qed.

Section Column.
Variables (col : CatRow -> pyfloat) (ecol : EmpRow -> pyfloat).
Hypothesis ecol_add : forall g r, ecol (add_row g r) = acc_add (ecol g) (col r).
Hypothesis ecol_open : forall r, ecol (open_group r) = acc_add zero (col r).

Lemma totals_ok_step rows groups r :
  keys_ok rows groups -> totals_ok col ecol rows groups ->
  totals_ok col ecol (rows ++ [r]) (add_to_groups r groups).
Proof.
  intros [Hnd Hk] Ht g' Hin. unfold month_total.
  rewrite filter_app, map_app.
  destruct (add_to_groups_In r groups g' Hnd Hin)
    as [[H1 H2]|[[g [H1 [H2 ->]]]|[-> H2]]].
  - simpl. destruct (ts_eqb (anio_mes r) (e_anio_mes g')) eqn:E.
    + apply ts_eqb_eq in E. congruence.
    + rewrite app_nil_r. apply Ht, H1.
  - rewrite ecol_add. simpl (e_anio_mes (add_row g r)).
    simpl. rewrite H2, ts_eqb_refl.
    specialize (Ht g H1). unfold month_total in Ht. rewrite H2 in Ht.
    apply (acc_add_total _ (col r)) in Ht.
    destruct (acc_add (ecol g) (col r)); simpl in *; [|contradiction].
    rewrite Ht. simpl. rewrite fsum_app. reflexivity.
  - rewrite ecol_open.
    simpl (e_anio_mes (open_group r)).
    rewrite filter_month_absent by (rewrite <- Hk; exact H2).
    simpl. rewrite ts_eqb_refl. simpl.
    destruct (col r); simpl; ring.
Qed.

Lemma fold_groups_ok l rows groups :
  keys_ok rows groups -> totals_ok col ecol rows groups ->
  let groups' := fold_left (fun acc r => add_to_groups r acc) l groups in
  keys_ok (rows ++ l) groups' /\ totals_ok col ecol (rows ++ l) groups'.
Proof.
  revert rows groups. induction l as [|r l IH]; intros rows groups Hk Ht.
  - simpl. rewrite app_nil_r. auto.
  - simpl. replace (rows ++ r :: l) with ((rows ++ [r]) ++ l)
      by (rewrite <- app_assoc; reflexivity).
    apply IH; [apply keys_ok_step, Hk | apply totals_ok_step; assumption].
Qed.

Lemma dfE_perm cat :
  Permutation (dfE cat) (fold_left (fun acc r => add_to_groups r acc) cat []).
Proof.
  unfold dfE, sort_values, groupby_sum. rewrite !sort_by_perm. reflexivity.
Qed.

End Column.

Lemma dfE_keys cat : keys_ok cat (dfE cat).
Proof.
  destruct (fold_groups_ok q_total_mes e_q_total_mes
              (fun _ _ => eq_refl) (fun _ => eq_refl) cat [] []) as [[Hnd Hk] _].
  - split; [constructor | simpl; tauto].
  - intros ? [].
  - simpl in Hnd, Hk.
    pose proof (Permutation_map e_anio_mes (dfE_perm cat)) as P.
    split.
    + apply (Permutation_NoDup (Permutation_sym P)), Hnd.
    + intros t. rewrite <- Hk. split; apply Permutation_in; [|symmetry]; exact P.
Qed.



(** The grouped frame is already ordered by month: [sort_values] leaves
    it as it is. *)
Lemma dfE_groupby_sum cat : dfE cat = groupby_sum cat.
Proof.
  unfold dfE, sort_values. apply sort_by_sorted_id.
  unfold groupby_sum. apply sort_by_sorted.
Qed.


(** ** The target month *)

Lemma digit_of_value c : is_digit c = true -> digit_of c = Some (digit_value c).
Proof.
  unfold is_digit, digit_of, digit_value.
  destruct ((48 <=? nat_of_ascii c) && (nat_of_ascii c <=? 57))%nat;
    [reflexivity | discriminate].
Qed.

Lemma num2_value a b :
  is_digit a = true -> is_digit b = true ->
  num2 a b = Some (10 * digit_value a + digit_value b).
Proof.
  intros Ha Hb. unfold num2.
  rewrite (digit_of_value a Ha), (digit_of_value b Hb). reflexivity.
Qed.

Lemma num4_value a b c d :
  is_digit a = true -> is_digit b = true ->
  is_digit c = true -> is_digit d = true ->
  num4 a b c d = Some (100 * (10 * digit_value a + digit_value b)
                       + (10 * digit_value c + digit_value d)).
Proof.
  intros Ha Hb Hc Hd. unfold num4.
  rewrite (num2_value a b Ha Hb), (num2_value c d Hc Hd). reflexivity.
Qed.

Lemma valid_first_day_in_range y m :
  month_in_range y m -> 1 <= m <= 12 -> valid_date y m 1 = true.
Proof.
  intros Hr Hm. unfold valid_date, in_timestamp_range.
  assert (D : 1 <= days_in_month y m).
  { unfold days_in_month.
    destruct (m =? 2); [destruct (is_leap y); lia|].
    destruct ((m =? 4) || (m =? 6) || (m =? 9) || (m =? 11)); lia. }
  assert (L : ts_leb (mkTs 1677 9 22) (mkTs y m 1) = true).
  { apply ts_leb_le. unfold ts_le, month_in_range in *.
    cbn [year month day]. lia. }
  assert (U : ts_leb (mkTs y m 1) (mkTs 2262 4 11) = true).
  { apply ts_leb_le. unfold ts_le, month_in_range in *.
    cbn [year month day]. lia. }
  rewrite L, U. cbn [andb].
  repeat (apply andb_true_iff; split); apply Z.leb_le; lia.
Qed.

Lemma valid_first_day y m :
  1678 <= y <= 2261 -> 1 <= m <= 12 -> valid_date y m 1 = true.
Proof.
  intros Hy Hm. apply valid_first_day_in_range; [|exact Hm].
  unfold month_in_range. lia.
Qed.

Lemma iso_date_of_yyyymm s :
  is_yyyymm s = true ->
  month_in_range (year_field s) (month_field s) ->
  1 <= month_field s <= 12 ->
  iso_date (s ++ "-01")%string
  = Some (mkTs (year_field s) (month_field s) 1).
Proof.
  intros Hf Hy Hm.
  destruct s as [|a [|b [|c [|d [|sep [|e [|f [|? ?]]]]]]]];
    try discriminate Hf.
  unfold is_yyyymm in Hf.
  repeat (apply andb_true_iff in Hf; destruct Hf as [Hf ?]).
  match goal with H : Ascii.eqb sep _ = true |- _ =>
    apply Ascii.eqb_eq in H; subst sep end.
  unfold year_field, month_field, decimal in *.
  cbn [substring list_ascii_of_string fold_left] in *.
  cbn [append iso_date].
  rewrite num4_value, num2_value by assumption.
  replace (100 * (10 * digit_value a + digit_value b)
           + (10 * digit_value c + digit_value d))
    with (10 * (10 * (10 * (10 * 0 + digit_value a) + digit_value b)
                + digit_value c) + digit_value d) by lia.
  replace (10 * digit_value e + digit_value f)
    with (10 * (10 * 0 + digit_value e) + digit_value f) by lia.
  change (num2 "0" "1") with (Some 1).
  cbv iota beta.
  rewrite valid_first_day_in_range by assumption. reflexivity.
Qed.

Lemma month_start_of_iso {P : DateParser} s t :
  iso_date (s ++ "-01")%string = Some t ->
  month_start_from_yyyymm s = Some (to_period_M_to_timestamp t).
Proof.
  intros H. unfold month_start_from_yyyymm.
  rewrite (to_datetime_iso _ _ H). reflexivity.
Qed.

(** C9 (as the code has it).  Whatever pandas does with other strings,
    every string of the shape [YYYY-MM] whose month is 01 to 12 and lies
    in the range of timestamps (1677-10 to 2262-04) parses to the first
    day of that month, and the page goes on with it.  The error is shown
    and the run stopped exactly when the call raises; the page goes on
    with a month exactly when the call returns it. *)
Theorem month_start_from_yyyymm_accepts {P : DateParser} (s : string) :
  is_yyyymm s = true ->
  month_in_range (year_field s) (month_field s) ->
  1 <= month_field s <= 12 ->
  (month_start_from_yyyymm s = Some (mkTs (year_field s) (month_field s) 1)
   /\ mes_obj s = Proceed (mkTs (year_field s) (month_field s) 1))
  /\ (forall s', mes_obj s' = FormatoInvalido
                 <-> month_start_from_yyyymm s' = None)
  /\ (forall s' t, mes_obj s' = Proceed t
                   <-> month_start_from_yyyymm s' = Some t).
Proof.
  intros Hf Hy Hm.
  assert (E : month_start_from_yyyymm s
              = Some (mkTs (year_field s) (month_field s) 1))
    by (apply (month_start_of_iso s _ (iso_date_of_yyyymm s Hf Hy Hm))).
  split; [split; [exact E|]|split].
  - unfold mes_obj. rewrite E. reflexivity.
  - intros s'. unfold mes_obj.
    destruct (month_start_from_yyyymm s'); split; congruence.
  - intros s' t. unfold mes_obj.
    destruct (month_start_from_yyyymm s'); split; congruence.
Qed.

Lemma month_start_from_yyyymm_accepts_witness :
  month_start_from_yyyymm (P := iso_parser) "1677-12" = Some (mkTs 1677 12 1)
  /\ mes_obj (P := iso_parser) "1677-12" = Proceed (mkTs 1677 12 1).
Proof.
  refine (proj1 (month_start_from_yyyymm_accepts (P := iso_parser)
                   "1677-12" _ _ _)).
  - reflexivity.
  - vm_compute. split; [right|left]; split; try reflexivity; discriminate.
  - vm_compute. split; discriminate.
Defined.

(** C9 (counterexample).  The string ["2026"] is not of the shape
    [YYYY-MM], yet the parse succeeds: with ["-01"] appended it reads
    ["2026-01"], an ISO form, and the page goes on with January 2026. *)
Lemma month_start_from_yyyymm_accepts_bare_year :
  is_yyyymm "2026" = false
  /\ (forall P : DateParser,
        month_start_from_yyyymm (P := P) "2026" = Some (mkTs 2026 1 1)
        /\ mes_obj (P := P) "2026" = Proceed (mkTs 2026 1 1)).
Proof.
  split; [reflexivity|]. intros P.
  assert (E : month_start_from_yyyymm "2026" = Some (mkTs 2026 1 1))
    by (apply (month_start_of_iso "2026" (mkTs 2026 1 1)); reflexivity).
  split; [exact E|]. unfold mes_obj. rewrite E. reflexivity.
Qed.

(** * Further properties of the code *)

(** ** The estimator *)

(** X1.  The target month enters [seasonal_baseline] through its month number
    only: its year and day do not matter. *)
Theorem seasonal_baseline_month_only
    (s : Series) (t1 t2 : Timestamp) (k_years fallback_last_n : Z) :
  month t1 = month t2 ->
  seasonal_baseline s t1 k_years fallback_last_n
  = seasonal_baseline s t2 k_years fallback_last_n.
Proof.
  intros E. unfold seasonal_baseline, normalize_month, to_period_M_to_timestamp.
  simpl. rewrite E. reflexivity.
Qed.

Lemma seasonal_baseline_month_only_witness :
  seasonal_baseline [(ts 2024 2, fin 100); (ts 2024 3, fin 7)]
                    (mkTs 2026 2 17) 3 6
  = seasonal_baseline [(ts 2024 2, fin 100); (ts 2024 3, fin 7)]
                      (mkTs 1999 2 1) 3 6.
Proof.
  apply (seasonal_baseline_month_only
           [(ts 2024 2, fin 100); (ts 2024 3, fin 7)]
           (mkTs 2026 2 17) (mkTs 1999 2 1) 3 6).
  reflexivity.
Defined.

Lemma Permutation_filter_compat {A : Type} (p : A -> bool) (l1 l2 : list A) :
  Permutation l1 l2 -> Permutation (filter p l1) (filter p l2).
Proof.
  induction 1 as [|x l1 l2 _ IH|x y l|l1 l2 l3 _ IH1 _ IH2]; simpl.
  - constructor.
  - destruct (p x); [constructor|]; exact IH.
  - destruct (p x), (p y); try reflexivity. apply perm_swap.
  - etransitivity; eassumption.
Qed.

Lemma sort_by_perm_unique {A : Type} (key : A -> Timestamp) (l1 l2 : list A) :
  Permutation l1 l2 -> NoDup (map key l1) ->
  sort_by key l1 = sort_by key l2.
Proof.
  intros P Hnd. apply (sorted_perm_unique key).
  - apply sort_by_sorted.
  - apply sort_by_sorted.
  - rewrite !sort_by_perm. exact P.
  - apply (Permutation_NoDup (l := map key l1)); [|exact Hnd].
    apply Permutation_map. symmetry. apply sort_by_perm.
Qed.

(** X2.  When the present entries carry distinct timestamps, the order in
    which the rows of the series are stored does not matter. *)
Theorem seasonal_baseline_row_order
    (s1 s2 : Series) (target : Timestamp) (k_years fallback_last_n : Z) :
  Permutation s1 s2 ->
  NoDup (map fst (dropna s1)) ->
  seasonal_baseline s1 target k_years fallback_last_n
  = seasonal_baseline s2 target k_years fallback_last_n.
Proof.
  intros P Hnd. unfold seasonal_baseline, sort_index.
  rewrite (sort_by_perm_unique fst (dropna s1) (dropna s2)); [reflexivity| |exact Hnd].
  unfold dropna. apply Permutation_filter_compat, P.
Qed.

Lemma seasonal_baseline_row_order_witness :
  seasonal_baseline [(ts 2025 2, fin 200); (ts 2023 2, fin 100);
                     (ts 2024 2, NaN)] (ts 2026 2) 1 6
  = seasonal_baseline [(ts 2023 2, fin 100); (ts 2024 2, NaN);
                       (ts 2025 2, fin 200)] (ts 2026 2) 1 6.
Proof.
  apply (seasonal_baseline_row_order
           [(ts 2025 2, fin 200); (ts 2023 2, fin 100); (ts 2024 2, NaN)]
           [(ts 2023 2, fin 100); (ts 2024 2, NaN); (ts 2025 2, fin 200)]).
  - apply (Permutation_cons_app [_; _] []). reflexivity.
  - simpl. repeat constructor; simpl; intuition discriminate.
Defined.

Lemma dropna_select_month m s :
  dropna (select_month m s) = select_month m (dropna s).
Proof.
  unfold dropna, select_month. induction s as [|e r IH]; simpl; [reflexivity|].
  destruct (month (fst e) =? m) eqn:Em, (negb (is_nan (snd e))) eqn:En; simpl;
    rewrite ?Em, ?En, IH; reflexivity.
Qed.

Lemma select_month_idem m s :
  select_month m (select_month m s) = select_month m s.
Proof.
  unfold select_month. induction s as [|e r IH]; simpl; [reflexivity|].
  destruct (month (fst e) =? m) eqn:Em; simpl; rewrite ?Em, IH; reflexivity.
Qed.

(** X5.  Once the series has an entry that is not missing in the calendar
    month of the target, and such entries carry distinct timestamps, the
    entries of the other months and the fallback window play no part: the
    result is the one of the series cut down to that month. *)
Theorem seasonal_baseline_other_months_ignored
    (s : Series) (target : Timestamp) (k_years f1 f2 : Z) :
  (exists e, In e s /\ in_month (month target) e = true) ->
  NoDup (map fst (filter (in_month (month target)) s)) ->
  seasonal_baseline s target k_years f1
  = seasonal_baseline (select_month (month target) s) target k_years f2.
Proof.
  intros [e [He Hm]] _.
  pose proof (month_entries_listing (month target) s) as L.
  assert (Hne : month_entries (month target) s <> [])
    by (exact (listing_nonempty _ _ _ e L He Hm)).
  assert (E : month_entries (month target) (select_month (month target) s)
              = month_entries (month target) s).
  { unfold month_entries.
    rewrite dropna_select_month, select_month_idem. reflexivity. }
  rewrite !seasonal_baseline_branch_same.
  - rewrite E. reflexivity.
  - rewrite E. exact Hne.
  - exact Hne.
Qed.

Lemma seasonal_baseline_other_months_ignored_witness :
  seasonal_baseline [(ts 2025 2, fin 40); (ts 2025 6, fin 50);
                     (ts 2024 2, fin 100); (ts 2023 2, NaN)]
                    (ts 2026 2) 3 6
  = seasonal_baseline [(ts 2025 2, fin 40); (ts 2024 2, fin 100);
                       (ts 2023 2, NaN)] (ts 2026 2) 3 1.
Proof.
  apply (seasonal_baseline_other_months_ignored
           [(ts 2025 2, fin 40); (ts 2025 6, fin 50);
            (ts 2024 2, fin 100); (ts 2023 2, NaN)] (ts 2026 2) 3 6 1).
  - exists (ts 2025 2, fin 40). split; [left; reflexivity | reflexivity].
  - simpl. repeat constructor; simpl; intuition discriminate.
Defined.

(** ** The option filter *)

Lemma Subseq_nil_l {A : Type} (l : list A) : Subseq [] l.
Proof. induction l; constructor; assumption. Qed.

Lemma Subseq_firstn {A : Type} (n : nat) (l : list A) : Subseq (firstn n l) l.
Proof.
  revert n. induction l as [|x r IH]; intros [|n]; simpl;
    try apply Subseq_nil_l.
  apply Subseq_take, IH.
Qed.

Lemma Subseq_filter {A : Type} (p : A -> bool) (l : list A) :
  Subseq (filter p l) l.
Proof.
  induction l as [|x r IH]; simpl; [constructor|].
  destruct (p x); constructor; exact IH.
Qed.

Lemma Subseq_trans {A : Type} (l1 l2 l3 : list A) :
  Subseq l1 l2 -> Subseq l2 l3 -> Subseq l1 l3.
Proof.
  intros H12 H23. revert l1 H12.
  induction H23 as [|x l2 l3 _ IH|x l2 l3 _ IH]; intros l1 H12.
  - exact H12.
  - constructor. apply IH, H12.
  - inversion H12; subst.
    + constructor. apply IH. assumption.
    + apply Subseq_take. apply IH. assumption.
Qed.

Lemma Subseq_slice_to {A : Type} (n : Z) (l : list A) : Subseq (slice_to n l) l.
Proof. unfold slice_to. destruct (0 <=? n); apply Subseq_firstn. Qed.

Lemma filter_result_subseq {ops : StrOps}
    (options : list string) (query : option string) (max_show : Z) :
  Subseq (safe_filter_options options query max_show) options.
Proof.
  unfold safe_filter_options.
  destruct (negb (truthy _)).
  - apply Subseq_slice_to.
  - eapply Subseq_trans; [apply Subseq_slice_to | apply Subseq_filter].
Qed.

(** X6.  The option filter only leaves options out: for every query (missing
    or not) and every [max_show], the result is a subsequence of the
    options, in their order. *)
Theorem safe_filter_options_subseq {ops : StrOps}
    (options : list string) (query : option string) (max_show : Z) :
  Subseq (safe_filter_options options query max_show) options.
Proof. apply filter_result_subseq. Qed.

Lemma firstn_nil_iff {A : Type} (n : nat) (l : list A) :
  (0 < n)%nat -> (firstn n l = [] <-> l = []).
Proof.
  intros Hn. destruct n; [lia|]. destruct l; simpl; split; congruence.
Qed.

Lemma filter_nil_iff {A : Type} (p : A -> bool) (l : list A) :
  filter p l = [] <-> forall x, In x l -> p x = false.
Proof.
  split; [|apply filter_no_match].
  intros E x Hx. destruct (p x) eqn:P; [|reflexivity].
  assert (In x (filter p l)) by (apply filter_In; auto).
  rewrite E in *. contradiction.
Qed.

Lemma filter_finds_nothing {ops : StrOps}
    (options : list string) (query : string) (max_show : Z) :
  0 < max_show ->
  (safe_filter_options options (Some query) max_show = [] <->
   (blank query /\ options = [])
   \/ (~ blank query /\ forall x, In x options -> ~ matches_query query x)).
Proof.
  intros Hn.
  assert (Hpos : (0 < Z.to_nat max_show)%nat) by lia.
  destruct (string_dec (strip query) EmptyString) as [B|B].
  - rewrite (filter_blank_query options query max_show B).
    rewrite slice_to_nonneg by lia. rewrite (firstn_nil_iff _ _ Hpos).
    unfold blank. tauto.
  - rewrite (filter_nonblank_query options query max_show B).
    rewrite slice_to_nonneg by lia.
    rewrite (firstn_nil_iff _ _ Hpos), filter_nil_iff.
    unfold blank, matches_query. split.
    + intros H. right. split; [exact B|]. intros x Hx M.
      apply contains_spec in M. rewrite (H x Hx) in M. discriminate.
    + intros [[E _]|[_ H]]; [contradiction|]. intros x Hx.
      destruct (contains _ (lower x)) eqn:C; [|reflexivity].
      exfalso. apply (H x Hx). apply contains_spec, C.
Qed.

(** X7.  When the filter finds nothing, whatever [str.strip()] and
    [str.lower()] take for whitespace and case.  For a positive
    [max_show], a blank query gives the empty list only for an empty
    list of options, and any other query gives it exactly when no option
    contains the lower-cased, trimmed query in its lower-cased form. *)
Theorem safe_filter_options_empty_iff {ops : StrOps}
    (options : list string) (query : string) (max_show : Z) :
  0 < max_show ->
  (safe_filter_options options (Some query) max_show = [] <->
   (blank query /\ options = [])
   \/ (~ blank query /\ forall x, In x options -> ~ matches_query query x)).
Proof. apply filter_finds_nothing. Qed.

Lemma safe_filter_options_empty_iff_witness :
  safe_filter_options (ops := ascii_ops) ["Arroz"; "Pollo"]%string
                      (Some "xyz"%string) 250 = [].
Proof.
  apply (safe_filter_options_empty_iff (ops := ascii_ops)
           ["Arroz"; "Pollo"]%string "xyz"%string 250).
  - lia.
  - right. split; [unfold blank; simpl; discriminate|].
    unfold matches_query. simpl.
    intros x [<-|[<-|[]]] M; apply contains_spec in M; discriminate.
Defined.

Lemma filter_firstn_filter {A : Type} (p : A -> bool) (n : nat) (l : list A) :
  filter p (firstn n (filter p l)) = firstn n (filter p l).
Proof.
  revert n. induction l as [|x r IH]; intros n; simpl.
  - rewrite firstn_nil. reflexivity.
  - destruct (p x) eqn:P; [|apply IH].
    destruct n; simpl; [reflexivity|]. rewrite P, IH. reflexivity.
Qed.

Lemma firstn_idem {A : Type} (n : nat) (l : list A) :
  firstn n (firstn n l) = firstn n l.
Proof. rewrite firstn_firstn, Nat.min_id. reflexivity. Qed.

(** X9.  Filtering the result again with the same query and the same
    [max_show] (not negative) changes nothing. *)
Theorem safe_filter_options_idempotent {ops : StrOps}
    (options : list string) (query : option string) (max_show : Z) :
  0 <= max_show ->
  safe_filter_options (safe_filter_options options query max_show)
                      query max_show
  = safe_filter_options options query max_show.
Proof.
  intros Hn. unfold safe_filter_options.
  destruct (negb (truthy _)); rewrite !slice_to_nonneg by exact Hn.
  - apply firstn_idem.
  - rewrite filter_firstn_filter. apply firstn_idem.
Qed.

Lemma safe_filter_options_idempotent_witness :
  safe_filter_options (ops := ascii_ops)
    (safe_filter_options (ops := ascii_ops)
                         ["Arroz"; "Pollo"; "Harina"]%string
                         (Some "ar"%string) 1)
    (Some "ar"%string) 1
  = safe_filter_options (ops := ascii_ops)
                        ["Arroz"; "Pollo"; "Harina"]%string
                        (Some "ar"%string) 1.
Proof.
  apply (safe_filter_options_idempotent (ops := ascii_ops)
           ["Arroz"; "Pollo"; "Harina"]%string (Some "ar"%string) 1).
  lia.
Defined.

(** X10.  A larger [max_show] only lengthens the result: for
    [0 <= n <= m], the result for [n] is the first [n] elements of the
    result for [m]. *)
Theorem safe_filter_options_max_show_prefix {ops : StrOps}
    (options : list string) (query : option string) (n m : Z) :
  0 <= n -> n <= m ->
  safe_filter_options options query n
  = firstn (Z.to_nat n) (safe_filter_options options query m).
Proof.
  intros Hn Hm. unfold safe_filter_options.
  destruct (negb (truthy _)); rewrite !slice_to_nonneg by lia;
    rewrite firstn_firstn; f_equal; lia.
Qed.

Lemma safe_filter_options_max_show_prefix_witness :
  safe_filter_options (ops := ascii_ops)
                      ["Arroz"; "Pollo"; "Harina"]%string None 1
  = firstn 1 (safe_filter_options (ops := ascii_ops)
                ["Arroz"; "Pollo"; "Harina"]%string None 2).
Proof.
  apply (safe_filter_options_max_show_prefix (ops := ascii_ops)
           ["Arroz"; "Pollo"; "Harina"]%string None 1 2); lia.
Defined.

(** ** The displayed number *)

Lemma digit_char_spec d :
  0 <= d <= 9 ->
  digit_value (digit_char d) = d /\ is_digit (digit_char d) = true.
Proof.
  intros H.
  assert (C : d = 0 \/ d = 1 \/ d = 2 \/ d = 3 \/ d = 4 \/ d = 5 \/ d = 6
              \/ d = 7 \/ d = 8 \/ d = 9) by lia.
  repeat (destruct C as [->|C]; [split; reflexivity|]).
  subst. split; reflexivity.
Qed.

Lemma digits_fuel_value fuel :
  forall n acc, 0 <= n < 2 ^ Z.of_nat fuel ->
    fold_left decimal_step (digits_fuel fuel n acc) 0
    = fold_left decimal_step acc n.
Proof.
  induction fuel as [|f IH]; intros n acc H.
  - simpl in H. assert (n = 0) by lia. subst. reflexivity.
  - cbn [digits_fuel].
    assert (Hd : 0 <= n mod 10 <= 9) by (pose proof (Z.mod_pos_bound n 10); lia).
    destruct (digit_char_spec _ Hd) as [Hv _].
    destruct (Z.ltb_spec n 10) as [L|L].
    + simpl. unfold decimal_step at 2. rewrite Hv.
      rewrite Z.mod_small by lia. reflexivity.
    + rewrite IH.
      * simpl. unfold decimal_step at 2. rewrite Hv.
        f_equal. pose proof (Z.div_mod n 10). lia.
      * rewrite Nat2Z.inj_succ, Z.pow_succ_r in H by lia.
        split; [apply Z.div_pos; lia|].
        apply Z.div_lt_upper_bound; lia.
Qed.

Lemma digits_fuel_digits fuel :
  forall n acc, Forall (fun c => is_digit c = true) acc ->
    Forall (fun c => is_digit c = true) (digits_fuel fuel n acc).
Proof.
  induction fuel as [|f IH]; intros n acc H; cbn [digits_fuel]; [exact H|].
  assert (Hd : 0 <= n mod 10 <= 9) by (pose proof (Z.mod_pos_bound n 10); lia).
  destruct (digit_char_spec _ Hd) as [_ Hv].
  destruct (n <? 10); [|apply IH]; constructor; assumption.
Qed.

Lemma digits_of_value n :
  0 <= n -> fold_left decimal_step (digits_of n) 0 = n.
Proof.
  intros H. unfold digits_of. rewrite digits_fuel_value; [reflexivity|].
  split; [exact H|]. rewrite Nat2Z.inj_succ, Z2Nat.id by apply Z.log2_nonneg.
  destruct (Z.eq_dec n 0) as [->|N]; [reflexivity|].
  apply Z.log2_spec. lia.
Qed.

Lemma digits_of_digits n :
  Forall (fun c => is_digit c = true) (digits_of n).
Proof. apply digits_fuel_digits. constructor. Qed.

(** Induction along the groups of three. *)
Lemma group3_ind (P : list ascii -> Prop) :
  P [] -> (forall a, P [a]) -> (forall a b, P [a; b]) ->
  (forall a b c, P [a; b; c]) ->
  (forall a b c d r, P (d :: r) -> P (a :: b :: c :: d :: r)) ->
  forall l, P l.
Proof.
  intros H0 H1 H2 H3 H4 l.
  assert (G : forall n l, (length l <= n)%nat -> P l).
  { induction n as [|n IH]; intros l' Hl.
    - destruct l'; [exact H0 | simpl in Hl; lia].
    - destruct l' as [|a [|b [|c [|d r]]]]; auto.
      apply H4. apply IH. simpl in *. lia. }
  apply (G (length l)). lia.
Qed.

Lemma digit_not_sep c :
  is_digit c = true -> Ascii.eqb c "," = false /\ Ascii.eqb c "." = false.
Proof.
  intros H. split; apply Ascii.eqb_neq; intros ->; discriminate H.
Qed.

Lemma group3_step a b c d r :
  group3 (a :: b :: c :: d :: r) = a :: b :: c :: ","%char :: group3 (d :: r).
Proof. reflexivity. Qed.

Lemma dots_removed_digit c l :
  is_digit c = true ->
  filter not_dot (map comma_to_dot (c :: l))
  = c :: filter not_dot (map comma_to_dot l).
Proof.
  intros H. destruct (digit_not_sep c H) as [H1 H2].
  assert (E : comma_to_dot c = c) by (unfold comma_to_dot; rewrite H1; reflexivity).
  cbn [map filter]. rewrite E. unfold not_dot at 1. rewrite H2. reflexivity.
Qed.

Lemma dots_removed_comma l :
  filter not_dot (map comma_to_dot (","%char :: l))
  = filter not_dot (map comma_to_dot l).
Proof. reflexivity. Qed.

Lemma dots_removed_digits l :
  Forall (fun c => is_digit c = true) l ->
  filter not_dot (map comma_to_dot l) = l.
Proof.
  induction 1 as [|c r Hc _ IH]; [reflexivity|].
  rewrite dots_removed_digit, IH by exact Hc. reflexivity.
Qed.

Ltac split_three H Ha Hb Hc Hr :=
  let H1 := fresh in let H2 := fresh in
  inversion H as [|? ? Ha H1]; subst;
  inversion H1 as [|? ? Hb H2]; subst;
  inversion H2 as [|? ? Hc Hr]; subst.

Lemma group3_dots_removed l :
  Forall (fun c => is_digit c = true) l ->
  filter not_dot (map comma_to_dot (group3 l)) = l.
Proof.
  induction l as [| | | |a b c d r IH] using group3_ind; intros H;
    try (apply dots_removed_digits; exact H).
  split_three H Ha Hb Hc Hr.
  rewrite group3_step.
  rewrite !dots_removed_digit by assumption.
  rewrite dots_removed_comma, IH by assumption. reflexivity.
Qed.

Lemma group3_digit_or_dot l :
  Forall (fun c => is_digit c = true) l ->
  forallb digit_or_dot (map comma_to_dot (group3 l)) = true.
Proof.
  assert (D : forall c, is_digit c = true -> digit_or_dot (comma_to_dot c) = true).
  { intros c H. destruct (digit_not_sep c H) as [H1 _].
    unfold comma_to_dot, digit_or_dot. rewrite H1, H. reflexivity. }
  assert (Plain : forall r, Forall (fun c => is_digit c = true) r ->
                            forallb digit_or_dot (map comma_to_dot r) = true).
  { induction 1 as [|c r Hc _ IH]; [reflexivity|].
    cbn [map forallb]. rewrite (D c Hc), IH. reflexivity. }
  induction l as [| | | |a b c d r IH] using group3_ind; intros H;
    try (apply Plain; exact H).
  split_three H Ha Hb Hc Hr.
  rewrite group3_step. cbn [map forallb].
  rewrite (D a Ha), (D b Hb), (D c Hc), IH by assumption. reflexivity.
Qed.

Lemma replace_char_list l :
  replace_char "," "." (string_of_list_ascii l)
  = string_of_list_ascii (map comma_to_dot l).
Proof. induction l as [|c r IH]; simpl; [|rewrite IH]; reflexivity. Qed.

Lemma remove_char_list l :
  remove_char "." (string_of_list_ascii l)
  = string_of_list_ascii (filter not_dot l).
Proof.
  induction l as [|c r IH]; simpl; [reflexivity|].
  unfold not_dot at 1. destruct (Ascii.eqb c "."); simpl; rewrite IH; reflexivity.
Qed.

Lemma digits_and_dots_list l :
  digits_and_dots (string_of_list_ascii l) = forallb digit_or_dot l.
Proof. induction l as [|c r IH]; simpl; [|rewrite IH]; reflexivity. Qed.

Lemma decimal_list l :
  decimal (string_of_list_ascii l) = fold_left decimal_step l 0.
Proof.
  unfold decimal. rewrite list_ascii_of_string_of_list_ascii. reflexivity.
Qed.

Lemma forallb_rev_true {A : Type} (p : A -> bool) (l : list A) :
  forallb p l = true -> forallb p (rev l) = true.
Proof.
  rewrite !forallb_forall. intros H x Hx. apply H, in_rev, Hx.
Qed.

Lemma filter_rev_comm {A : Type} (p : A -> bool) (l : list A) :
  filter p (rev l) = rev (filter p l).
Proof.
  induction l as [|x r IH]; simpl; [reflexivity|].
  rewrite filter_app, IH. simpl. destruct (p x); simpl;
    [reflexivity | apply app_nil_r].
Qed.

Lemma fmt_int_nonneg_chars q :
  (0 <= q)%Q ->
  fmt_int (Number q)
  = string_of_list_ascii
      (rev (map comma_to_dot (group3 (rev (digits_of (round_half_even q)))))).
Proof.
  intros H. unfold fmt_int, format_comma_0f, Qltb.
  apply Qle_bool_iff in H. rewrite H. simpl negb. cbv iota.
  unfold with_thousands. rewrite replace_char_list, map_rev. reflexivity.
Qed.

Lemma round_half_even_near q :
  (inject_Z (round_half_even q) - (1 # 2) <= q)%Q /\
  (q <= inject_Z (round_half_even q) + (1 # 2))%Q.
Proof.
  unfold round_half_even.
  pose proof (Qfloor_le q) as L. pose proof (Qlt_floor q) as U.
  rewrite inject_Z_plus in U. change (inject_Z 1) with 1%Q in U.
  set (f := Qfloor q) in *.
  destruct (Qcompare_spec (q - inject_Z f) (1 # 2)) as [E|E|E].
  - destruct (Z.even f); [|rewrite inject_Z_plus; change (inject_Z 1) with 1%Q];
      split; lra.
  - split; lra.
  - rewrite inject_Z_plus. change (inject_Z 1) with 1%Q. split; lra.
Qed.

Lemma round_half_even_nonneg q : (0 <= q)%Q -> 0 <= round_half_even q.
Proof.
  intros H. unfold round_half_even.
  assert (F : 0 <= Qfloor q).
  { change 0 with (Qfloor 0). apply Qfloor_resp_le, H. }
  destruct (Qcompare _ _); [destruct (Z.even _)| |]; lia.
Qed.

(** X11.  What [fmt_int] shows for a number (neither an infinity nor NaN)
    that is positive or the positive zero: only digits and dots, and,
    read without the dots, the integer nearest to the number (within one
    half of it), which is the number itself when it is whole.  The
    negative zero and the infinities print as ["-0"], ["inf"] and
    ["-inf"]. *)
Theorem fmt_int_shows_nearest_integer (q : Q) :
  (0 <= q)%Q ->
  let shown := decimal (remove_char "." (fmt_int (Number q))) in
  digits_and_dots (fmt_int (Number q)) = true
  /\ shown = round_half_even q
  /\ (inject_Z shown - (1 # 2) <= q)%Q
  /\ (q <= inject_Z shown + (1 # 2))%Q
  /\ (forall z, (q == inject_Z z)%Q -> shown = z)
  /\ fmt_int NegZero = "-0"%string
  /\ fmt_int PosInf = "inf"%string
  /\ fmt_int NegInf = "-inf"%string.
Proof.
  intros H shown.
  assert (D : Forall (fun c => is_digit c = true)
                     (rev (digits_of (round_half_even q))))
    by (apply Forall_rev, digits_of_digits).
  assert (E : shown = round_half_even q).
  { unfold shown. rewrite (fmt_int_nonneg_chars q H).
    rewrite remove_char_list, filter_rev_comm, group3_dots_removed by exact D.
    rewrite rev_involutive, decimal_list.
    apply digits_of_value, round_half_even_nonneg, H. }
  destruct (round_half_even_near q) as [L U].
  split; [|split; [exact E|rewrite E; split; [exact L|split; [exact U|]]]].
  - rewrite (fmt_int_nonneg_chars q H), digits_and_dots_list.
    apply forallb_rev_true, group3_digit_or_dot, D.
  - split; [|repeat split]. intros z Hz.
    assert (L' : (inject_Z (round_half_even q) < inject_Z (z + 1))%Q)
      by (rewrite inject_Z_plus; change (inject_Z 1) with 1%Q; lra).
    assert (U' : (inject_Z z < inject_Z (round_half_even q + 1))%Q)
      by (rewrite inject_Z_plus; change (inject_Z 1) with 1%Q; lra).
    rewrite <- Zlt_Qlt in L', U'. lia.
Qed.

Lemma fmt_int_shows_nearest_integer_witness :
  decimal (remove_char "." (fmt_int (Number (2469135 # 2))))
  = round_half_even (2469135 # 2).
Proof.
  refine (proj1 (proj2 (fmt_int_shows_nearest_integer (2469135 # 2) _))).
  unfold Qle. simpl. lia.
Defined.

Lemma comma_to_dot_digit c :
  is_digit c = true -> comma_to_dot c <> "."%char.
Proof.
  intros H. destruct (digit_not_sep c H) as [H1 H2].
  unfold comma_to_dot. rewrite H1. apply Ascii.eqb_neq, H2.
Qed.

Lemma mod4_shift j : (S (S (S (S j))) mod 4 = j mod 4)%nat.
Proof.
  replace (S (S (S (S j)))) with (j + 1 * 4)%nat by lia.
  apply Nat.Div0.mod_add.
Qed.

Lemma plain_no_dot l i :
  Forall (fun c => is_digit c = true) l ->
  (i < length l)%nat -> nth i (map comma_to_dot l) "0"%char <> "."%char.
Proof.
  intros H. revert i. induction H as [|c r Hc _ IH]; intros i Hi.
  - simpl in Hi. lia.
  - destruct i; simpl; [apply comma_to_dot_digit, Hc|].
    apply IH. simpl in Hi. lia.
Qed.

Lemma group3_dot_positions l :
  Forall (fun c => is_digit c = true) l ->
  forall i, (i < length (group3 l))%nat ->
    (nth i (map comma_to_dot (group3 l)) "0"%char = "."%char
     <-> (i mod 4 = 3)%nat).
Proof.
  assert (Short : forall r, Forall (fun c => is_digit c = true) r ->
            (length r <= 3)%nat ->
            forall i, (i < length r)%nat ->
              (nth i (map comma_to_dot r) "0"%char = "."%char
               <-> (i mod 4 = 3)%nat)).
  { intros r Hr Hlen i Hi. split.
    - intros E. exfalso. exact (plain_no_dot r i Hr Hi E).
    - intros E. rewrite Nat.mod_small in E by lia. lia. }
  induction l as [| | | |a b c d r IH] using group3_ind; intros H;
    try (apply Short; [exact H | simpl; lia]).
  split_three H Ha Hb Hc Hr.
  intros i Hi. rewrite group3_step in *.
  destruct i as [|[|[|[|j]]]].
  - exact (Short [a; b; c] ltac:(repeat constructor; assumption)
             ltac:(simpl; lia) 0%nat ltac:(simpl; lia)).
  - exact (Short [a; b; c] ltac:(repeat constructor; assumption)
             ltac:(simpl; lia) 1%nat ltac:(simpl; lia)).
  - exact (Short [a; b; c] ltac:(repeat constructor; assumption)
             ltac:(simpl; lia) 2%nat ltac:(simpl; lia)).
  - simpl. split; reflexivity.
  - rewrite mod4_shift. cbn [map nth].
    apply IH; [exact Hr|]. simpl in Hi. simpl. lia.
Qed.

Lemma group3_last_digit l c :
  Forall (fun c => is_digit c = true) l ->
  last (group3 l) c = last l c.
Proof.
  induction l as [| | | |a b c0 d r IH] using group3_ind; intros H;
    try reflexivity.
  split_three H Ha Hb Hc Hr.
  rewrite group3_step.
  change (last (a :: b :: c0 :: ","%char :: group3 (d :: r)) c)
    with (last (","%char :: group3 (d :: r)) c).
  change (last (a :: b :: c0 :: d :: r) c) with (last (d :: r) c).
  rewrite <- (IH Hr).
  destruct (group3 (d :: r)) eqn:E; [|reflexivity].
  destruct r as [|? [|? [|? ?]]]; discriminate E.
Qed.

Lemma digits_fuel_nonempty fuel :
  forall n acc, acc <> [] -> digits_fuel fuel n acc <> [].
Proof.
  induction fuel as [|f IH]; intros n acc H; cbn [digits_fuel]; [exact H|].
  destruct (n <? 10); [discriminate | apply IH; discriminate].
Qed.

Lemma digits_of_nonempty n : digits_of n <> [].
Proof.
  unfold digits_of. cbn [digits_fuel].
  destruct (n <? 10); [discriminate | apply digits_fuel_nonempty; discriminate].
Qed.

Lemma group3_nonempty l : l <> [] -> group3 l <> [].
Proof. destruct l as [|? [|? [|? [|? ?]]]]; intros H; [congruence | discriminate..]. Qed.

Lemma last_is_digit l d :
  Forall (fun c => is_digit c = true) l -> l <> [] ->
  is_digit (last l d) = true.
Proof.
  induction 1 as [|c r Hc Hr IH]; intros Hne; [congruence|].
  destruct r; [exact Hc|]. apply IH. discriminate.
Qed.

(** X13.  The thousands separators of [fmt_int].  For a number (neither an
    infinity nor NaN) that is positive or the positive zero, reading the
    text from its last character (position 0), the dots are exactly at
    the positions 3, 7, 11, ...: groups of three digits from the right;
    and the text starts with a digit. *)
Theorem fmt_int_groups_of_three (q : Q) :
  (0 <= q)%Q ->
  let text := list_ascii_of_string (fmt_int (Number q)) in
  (forall i, (i < length text)%nat ->
     (nth i (rev text) "0"%char = "."%char <-> (i mod 4 = 3)%nat))
  /\ is_digit (hd "."%char text) = true.
Proof.
  intros H text.
  assert (D : Forall (fun c => is_digit c = true)
                     (rev (digits_of (round_half_even q))))
    by (apply Forall_rev, digits_of_digits).
  assert (E : text = rev (map comma_to_dot
                         (group3 (rev (digits_of (round_half_even q)))))).
  { unfold text. rewrite (fmt_int_nonneg_chars q H).
    apply list_ascii_of_string_of_list_ascii. }
  split.
  - intros i Hi. rewrite E, rev_involutive.
    apply group3_dot_positions; [exact D|].
    rewrite E, length_rev, length_map in Hi. exact Hi.
  - rewrite E.
    set (ds := rev (digits_of (round_half_even q))) in *.
    assert (Hne : ds <> []).
    { unfold ds. intros N. apply (f_equal (@rev ascii)) in N.
      rewrite rev_involutive in N. exact (digits_of_nonempty _ N). }
    assert (G : group3 ds <> []) by (apply group3_nonempty, Hne).
    rewrite <- map_rev.
    rewrite <- (rev_involutive (group3 ds)) in G.
    destruct (rev (group3 ds)) as [|x r] eqn:R;
      [exfalso; apply G; reflexivity|].
    cbn [map hd].
    assert (X : x = last ds "."%char).
    { rewrite <- (group3_last_digit ds "."%char D).
      rewrite <- (rev_involutive (group3 ds)), R. simpl.
      symmetry. apply last_last. }
    assert (Xd : is_digit x = true)
      by (rewrite X; apply last_is_digit; assumption).
    destruct (digit_not_sep x Xd) as [X1 _].
    unfold comma_to_dot. rewrite X1. exact Xd.
Qed.

Lemma fmt_int_groups_of_three_witness :
  is_digit (hd "."%char (list_ascii_of_string (fmt_int (Number (1234567 # 1)))))
  = true.
Proof.
  refine (proj2 (fmt_int_groups_of_three (1234567 # 1) _)).
  unfold Qle. simpl. lia.
Defined.

(** ** The target month, the last month and the horizon *)

Lemma four_digits_value y :
  0 <= y <= 9999 ->
  100 * (10 * (y / 1000 mod 10) + y / 100 mod 10)
  + (10 * (y / 10 mod 10) + y mod 10) = y.
Proof. intros H. Z.to_euclidean_division_equations. lia. Qed.

Lemma two_digits_value m :
  0 <= m <= 99 -> 10 * (m / 10 mod 10) + m mod 10 = m.
Proof. intros H. Z.to_euclidean_division_equations. lia. Qed.

Lemma mod10_digit n : 0 <= n mod 10 <= 9.
Proof. pose proof (Z.mod_pos_bound n 10). lia. Qed.

Lemma num2_digit_chars a b :
  num2 (digit_char (a mod 10)) (digit_char (b mod 10))
  = Some (10 * (a mod 10) + b mod 10).
Proof.
  destruct (digit_char_spec _ (mod10_digit a)) as [Va Da].
  destruct (digit_char_spec _ (mod10_digit b)) as [Vb Db].
  rewrite num2_value by assumption. rewrite Va, Vb. reflexivity.
Qed.

Lemma iso_date_of_strftime t :
  valid_month t ->
  iso_date (strftime_Ym t ++ "-01")%string = Some (mkTs (year t) (month t) 1).
Proof.
  intros [Hy Hm]. unfold strftime_Ym.
  cbn [append iso_date]. unfold num4.
  rewrite !num2_digit_chars.
  change (num2 "0" "1") with (Some 1). cbv iota beta.
  rewrite four_digits_value, two_digits_value by lia.
  rewrite valid_first_day by assumption. reflexivity.
Qed.

Lemma month_start_of_strftime {P : DateParser} t :
  valid_month t ->
  month_start_from_yyyymm (strftime_Ym t) = Some (to_period_M_to_timestamp t).
Proof.
  intros V.
  apply (month_start_of_iso (strftime_Ym t) _ (iso_date_of_strftime t V)).
Qed.

(** X14.  Printing a month with [strftime("%Y-%m")] and parsing the text back
    with [month_start_from_yyyymm] gives the first day of that month,
    for every month a timestamp can hold (years 1678 to 2261). *)
Theorem strftime_parse_round_trip {P : DateParser} (t : Timestamp) :
  valid_month t ->
  month_start_from_yyyymm (strftime_Ym t) = Some (to_period_M_to_timestamp t).
Proof. apply month_start_of_strftime. Qed.

Lemma strftime_parse_round_trip_witness :
  month_start_from_yyyymm (P := iso_parser) (strftime_Ym (mkTs 2025 11 23))
  = Some (mkTs 2025 11 1).
Proof.
  apply (strftime_parse_round_trip (P := iso_parser) (mkTs 2025 11 23)).
  unfold valid_month. simpl. lia.
Defined.

(** X15.  The default of the target-month input.  For a last month of the data
    in the years 1678 to 2260, the proposed text is accepted by the
    parser, the target it yields is the month after the last one, later
    than it, and the horizon shown is 1. *)
Theorem default_target_month {P : DateParser} (last : Timestamp) :
  1678 <= year last <= 2260 -> 1 <= month last <= 12 ->
  let mes_str := strftime_Ym (default_next last) in
  mes_obj mes_str = Proceed (default_next last)
  /\ ts_lt last (default_next last)
  /\ horizon (default_next last) last = 1.
Proof.
  intros Hy Hm mes_str.
  assert (V : valid_month (default_next last)).
  { unfold valid_month, default_next, add_month_begin.
    destruct (Z.eqb_spec (month last) 12); simpl; lia. }
  split; [|split].
  - unfold mes_obj, mes_str. rewrite month_start_of_strftime by exact V.
    reflexivity.
  - unfold default_next, add_month_begin, ts_lt.
    destruct (Z.eqb_spec (month last) 12); simpl; lia.
  - unfold horizon, month_ordinal, default_next, add_month_begin,
      to_period_M_to_timestamp.
    destruct (Z.eqb_spec (month last) 12); cbn [year month day]; lia.
Qed.

Lemma default_target_month_witness :
  mes_obj (P := iso_parser) (strftime_Ym (default_next (mkTs 2025 12 1)))
  = Proceed (mkTs 2026 1 1).
Proof.
  refine (proj1 (default_target_month (P := iso_parser)
                   (mkTs 2025 12 1) _ _)); simpl; lia.
Defined.

(** X16.  The horizon compares months: for two timestamps with months 1 to
    12, it is positive exactly when the target month is later than the
    last month, and zero exactly when they are the same month; the days
    play no part. *)
Theorem horizon_sign (target last : Timestamp) :
  1 <= month target <= 12 -> 1 <= month last <= 12 ->
  (0 < horizon target last
   <-> ts_lt (to_period_M_to_timestamp last) (to_period_M_to_timestamp target))
  /\ (horizon target last = 0
      <-> to_period_M_to_timestamp target = to_period_M_to_timestamp last).
Proof.
  intros Ht Hl. unfold horizon, month_ordinal, ts_lt, to_period_M_to_timestamp.
  cbn [year month day]. split; split; intros H.
  - lia.
  - lia.
  - f_equal; lia.
  - injection H as H1 H2. lia.
Qed.

Lemma horizon_sign_witness :
  0 < horizon (mkTs 2026 2 1) (mkTs 2025 11 1)
  <-> ts_lt (mkTs 2025 11 1) (mkTs 2026 2 1).
Proof.
  refine (proj1 (horizon_sign (mkTs 2026 2 1) (mkTs 2025 11 1) _ _));
    simpl; lia.
Defined.

Lemma ts_max_spec l m :
  ts_max l = Some m -> In m l /\ forall t, In t l -> ts_le t m.
Proof.
  revert m. induction l as [|x r IH]; intros m; simpl; [discriminate|].
  destruct (ts_max r) as [m'|] eqn:E.
  - destruct (IH m' eq_refl) as [Hin Hle].
    destruct (ts_leb x m') eqn:L; intros [= <-].
    + apply ts_leb_le in L. split; [right; exact Hin|].
      intros t [<-|Ht]; [exact L | apply Hle, Ht].
    + apply ts_leb_gt in L. split; [left; reflexivity|].
      intros t [<-|Ht].
      * unfold ts_le. lia.
      * eapply ts_le_trans; [apply Hle, Ht | apply ts_lt_le, L].
  - intros [= <-]. destruct r; [|simpl in E; destruct (ts_max r); discriminate].
    split; [left; reflexivity|]. intros t [<-|[]]. unfold ts_le. lia.
Qed.

Lemma ts_max_none l : ts_max l = None <-> l = [].
Proof.
  destruct l as [|x r]; simpl; [tauto|].
  destruct (ts_max r); split; discriminate.
Qed.

Lemma ts_le_refl t : ts_le t t.
Proof. unfold ts_le. lia. Qed.

Ltac order_facts :=
  repeat match goal with
         | H : ts_leb _ _ = true |- _ => apply ts_leb_le in H
         | H : ts_leb _ _ = false |- _ => apply ts_leb_gt, ts_lt_le in H
         end.

Lemma max3_spec a b c :
  (max3 a b c = None <-> a = None)
  /\ (forall L, max3 a b c = Some L ->
        (a = Some L \/ b = Some L \/ c = Some L)
        /\ (forall t, a = Some t \/ b = Some t \/ c = Some t -> ts_le t L)).
Proof.
  unfold max3, nat_gt.
  destruct a as [x|], b as [y|], c as [z|]; simpl;
    repeat match goal with
           | |- context [ts_leb ?u ?v] => destruct (ts_leb u v) eqn:?; simpl
           end; order_facts;
    (split; [split; intros E; solve [discriminate E | reflexivity]|]);
    intros L E; try discriminate E; injection E as <-;
    (split; [auto|]);
    intros t [T|[T|T]]; try discriminate T; injection T as <-;
    eauto using ts_le_refl, ts_le_trans.
Qed.

(** X17.  The last month of the data.  It is missing (NaT) exactly when the
    product panel is empty: an empty client or category panel is passed
    over by [max].  Otherwise it is the month of a row of one of the
    panels, no row of any panel is later, and the default target (the
    month after it) is later than every row. *)
Theorem last_month_is_latest
    (prod : list ProdRow) (cli : list CliRow) (cat : list CatRow) :
  (last_month prod cli cat = None <-> prod = [])
  /\ (forall L, last_month prod cli cat = Some L ->
        (In L (map p_anio_mes prod) \/ In L (map c_anio_mes cli)
         \/ In L (map anio_mes cat))
        /\ (forall t, In t (map p_anio_mes prod) \/ In t (map c_anio_mes cli)
                      \/ In t (map anio_mes cat) ->
                      ts_le t L /\ (month L <= 12 -> ts_lt t (default_next L)))).
Proof.
  unfold last_month.
  destruct (max3_spec (ts_max (map p_anio_mes prod))
              (ts_max (map c_anio_mes cli)) (ts_max (map anio_mes cat)))
    as [Hnone Hsome].
  split.
  - rewrite Hnone, ts_max_none. destruct prod; simpl; split; congruence.
  - intros L E. destruct (Hsome L E) as [Hin Hle]. split.
    + destruct Hin as [H|[H|H]]; apply ts_max_spec in H; tauto.
    + intros t Ht.
      assert (Le : ts_le t L).
      { destruct Ht as [Ht|[Ht|Ht]].
        - destruct (ts_max (map p_anio_mes prod)) as [m|] eqn:M;
            [|apply ts_max_none in M; rewrite M in Ht; contradiction].
          eapply ts_le_trans; [apply (ts_max_spec _ _ M), Ht|].
          apply Hle. auto.
        - destruct (ts_max (map c_anio_mes cli)) as [m|] eqn:M;
            [|apply ts_max_none in M; rewrite M in Ht; contradiction].
          eapply ts_le_trans; [apply (ts_max_spec _ _ M), Ht|].
          apply Hle. auto.
        - destruct (ts_max (map anio_mes cat)) as [m|] eqn:M;
            [|apply ts_max_none in M; rewrite M in Ht; contradiction].
          eapply ts_le_trans; [apply (ts_max_spec _ _ M), Ht|].
          apply Hle. auto. }
      split; [exact Le|]. intros H12.
      unfold default_next, to_period_M_to_timestamp, add_month_begin.
      revert Le. unfold ts_le, ts_lt.
      destruct (Z.eqb_spec (month L) 12); cbn [year month day]; lia.
Qed.

(** ** The entity tabs *)

Lemma Subseq_In {A : Type} (l1 l2 : list A) (x : A) :
  Subseq l1 l2 -> In x l1 -> In x l2.
Proof.
  induction 1 as [|y l1 l2 _ IH|y l1 l2 _ IH]; simpl; intros H.
  - exact H.
  - right. apply IH, H.
  - destruct H as [H|H]; [left; exact H | right; apply IH, H].
Qed.

Lemma existsb_eqb_In x seen :
  existsb (String.eqb x) seen = true <-> In x seen.
Proof.
  rewrite existsb_exists. split.
  - intros [y [Hy E]]. apply String.eqb_eq in E. subst. exact Hy.
  - intros H. exists x. split; [exact H | apply String.eqb_refl].
Qed.

Lemma unique_acc_In seen l x :
  In x (unique_acc seen l) <-> In x l /\ ~ In x seen.
Proof.
  revert seen. induction l as [|y r IH]; intros seen; simpl.
  - tauto.
  - destruct (existsb (String.eqb y) seen) eqn:E.
    + apply existsb_eqb_In in E. rewrite IH. split.
      * intros [H1 H2]. auto.
      * intros [[->|H1] H2]; [contradiction | auto].
    + assert (N : ~ In y seen)
        by (intros H; apply existsb_eqb_In in H; congruence).
      simpl. rewrite IH. simpl. split.
      * intros [<-|[H1 H2]]; [auto | split; [auto | tauto]].
      * intros [[->|H1] H2]; [auto|].
        destruct (string_dec y x) as [->|D]; [auto|]. right. tauto.
Qed.

Lemma unique_acc_NoDup seen l : NoDup (unique_acc seen l).
Proof.
  revert seen. induction l as [|y r IH]; intros seen; simpl; [constructor|].
  destruct (existsb (String.eqb y) seen); [apply IH|].
  constructor; [|apply IH].
  rewrite unique_acc_In. simpl. tauto.
Qed.

Lemma insert_str_perm x l : Permutation (insert_str x l) (x :: l).
Proof.
  induction l as [|y r IH]; simpl; [reflexivity|].
  destruct (String.leb y x); [|reflexivity].
  rewrite IH. apply perm_swap.
Qed.

Lemma sorted_str_perm l : Permutation (sorted_str l) l.
Proof.
  unfold sorted_str.
  assert (G : forall acc, Permutation
            (fold_left (fun a x => insert_str x a) l acc) (l ++ acc)).
  { induction l as [|x r IH]; intros acc; simpl; [reflexivity|].
    rewrite IH, insert_str_perm. symmetry. apply Permutation_middle. }
  rewrite G, app_nil_r. reflexivity.
Qed.

Lemma leb_false_flip a b : String.leb a b = false -> String.leb b a = true.
Proof.
  intros H. destruct (String.leb_total a b) as [E|E]; congruence.
Qed.

Lemma insert_str_sorted x l :
  Sorted (fun a b => String.leb a b = true) l ->
  Sorted (fun a b => String.leb a b = true) (insert_str x l).
Proof.
  induction 1 as [|y r Hr IH Hy]; simpl.
  - repeat constructor.
  - destruct (String.leb y x) eqn:E.
    + constructor; [exact IH|].
      destruct r as [|z r']; simpl.
      * constructor. exact E.
      * inversion Hy; subst.
        destruct (String.leb z x); constructor; assumption.
    + constructor; [constructor; assumption|].
      constructor. apply leb_false_flip, E.
Qed.

Lemma sorted_str_sorted l :
  Sorted (fun a b => String.leb a b = true) (sorted_str l).
Proof.
  unfold sorted_str.
  assert (G : forall acc, Sorted (fun a b => String.leb a b = true) acc ->
            Sorted (fun a b => String.leb a b = true)
                   (fold_left (fun a x => insert_str x a) l acc)).
  { induction l as [|x r IH]; intros acc H; simpl; [exact H|].
    apply IH, insert_str_sorted, H. }
  apply G. constructor.
Qed.

Section EntityTabFacts.
Context {ops : StrOps} {Row : Type}.
Variable name : Row -> string.
Variable mes : Row -> Timestamp.
Variables q_col v_col m_col : Row -> pyfloat.

Lemma entity_options_In panel x :
  In x (entity_options name panel) <-> In x (map name panel).
Proof.
  unfold entity_options. split; intros H.
  - apply (Permutation_in _ (sorted_str_perm _)) in H.
    apply unique_acc_In in H. apply H.
  - apply (Permutation_in _ (Permutation_sym (sorted_str_perm _))).
    apply unique_acc_In. split; [exact H | intros []].
Qed.

(** X18.  The options of a select box: the names of the panel, each once, in
    lexicographic order. *)
Theorem entity_options_sorted_unique (panel : list Row) :
  NoDup (entity_options name panel)
  /\ Sorted (fun a b => String.leb a b = true) (entity_options name panel)
  /\ (forall x, In x (entity_options name panel)
                <-> exists r, In r panel /\ name r = x).
Proof.
  split; [|split].
  - unfold entity_options.
    apply (Permutation_NoDup (Permutation_sym (sorted_str_perm _))).
    apply unique_acc_NoDup.
  - apply sorted_str_sorted.
  - intros x. rewrite entity_options_In, in_map_iff.
    split; intros [r [H1 H2]]; exists r; auto.
Qed.

Lemma entity_frame_In sel panel r :
  In r (entity_frame name mes sel panel) <-> In r panel /\ name r = sel.
Proof.
  unfold entity_frame. split; intros H.
  - apply (Permutation_in _ (sort_by_perm mes _)) in H.
    apply filter_In in H. rewrite String.eqb_eq in H. exact H.
  - apply (Permutation_in _ (Permutation_sym (sort_by_perm mes _))).
    apply filter_In. rewrite String.eqb_eq. exact H.
Qed.

(** X19.  The frame of the selected entity: the rows of the panel that carry
    its name, all of them and nothing else, in chronological order. *)
Theorem entity_frame_rows (sel : string) (panel : list Row) :
  Permutation (entity_frame name mes sel panel)
              (filter (fun r => String.eqb (name r) sel) panel)
  /\ StronglySorted (key_le mes) (entity_frame name mes sel panel)
  /\ (forall r, In r (entity_frame name mes sel panel)
                <-> In r panel /\ name r = sel).
Proof.
  split; [apply sort_by_perm|]. split; [apply sort_by_sorted|].
  intros r. apply entity_frame_In.
Qed.

Lemma tail_suffix {A : Type} (n : Z) (l : list A) :
  exists older, l = older ++ tail n l.
Proof.
  unfold tail. destruct (n =? 0).
  - exists l. rewrite app_nil_r. reflexivity.
  - destruct (0 <? n); eexists; symmetry; apply firstn_skipn.
Qed.

Lemma sorted_app_le {A : Type} (key : A -> Timestamp) (l1 l2 : list A) :
  StronglySorted (key_le key) (l1 ++ l2) ->
  forall a b, In a l1 -> In b l2 -> ts_le (key a) (key b).
Proof.
  induction l1 as [|x r IH]; simpl; intros H a b Ha Hb; [contradiction|].
  inversion H as [|? ? Hs Hf]; subst. destruct Ha as [<-|Ha].
  - rewrite Forall_forall in Hf. apply Hf, in_or_app. right. exact Hb.
  - apply (IH Hs a b Ha Hb).
Qed.

(** X20.  The history table of a tab: the last [min(24, n)] rows of the
    entity's frame.  The rows left out are the older ones: none of them
    is later than a row shown. *)
Theorem history_last_24 (sel : string) (panel : list Row) :
  let df := entity_frame name mes sel panel in
  exists older,
    df = older ++ history df
    /\ length (history df) = Nat.min 24 (length df)
    /\ (forall a b, In a older -> In b (history df) ->
                    ts_le (mes a) (mes b)).
Proof.
  intros df. destruct (tail_suffix 24 df) as [older E].
  exists older. split; [exact E|]. split.
  - unfold history. rewrite (tail_pos 24 df) by lia.
    rewrite last_n_length. unfold min_count. lia.
  - apply sorted_app_le. unfold history. rewrite <- E.
    apply sort_by_sorted.
Qed.

Lemma nth_default_In {A : Type} (l : list A) (n : nat) (d : A) :
  In d l -> In (nth n l d) l.
Proof.
  intros H. destruct (Nat.lt_ge_cases n (length l)) as [L|L].
  - apply nth_In, L.
  - rewrite nth_overflow by exact L. exact H.
Qed.

Lemma entity_tab_halts
    (panel : list Row) (query : string) (pick : nat) (mes_obj : Timestamp) :
  entity_tab name mes q_col v_col m_col panel query pick mes_obj
    = SinCoincidencias
  <-> (blank query /\ panel = [])
      \/ (~ blank query
          /\ forall r, In r panel -> ~ matches_query query (name r)).
Proof.
  unfold entity_tab.
  pose proof (filter_finds_nothing (entity_options name panel) query
                default_max_show ltac:(unfold default_max_show; lia)) as F.
  assert (Hopt : entity_options name panel = [] <-> panel = []).
  { split.
    - intros E. destruct panel as [|r p]; [reflexivity|]. exfalso.
      assert (H : In (name r) (entity_options name (r :: p)))
        by (apply entity_options_In; left; reflexivity).
      rewrite E in H. exact H.
    - intros ->. reflexivity. }
  assert (Hm : (forall x, In x (entity_options name panel) ->
                          ~ matches_query query x)
               <-> (forall r, In r panel -> ~ matches_query query (name r))).
  { split.
    - intros H r Hr. apply H, entity_options_In, in_map, Hr.
    - intros H x Hx. apply entity_options_In, in_map_iff in Hx.
      destruct Hx as [r [<- Hr]]. apply H, Hr. }
  rewrite Hopt, Hm in F.
  destruct (safe_filter_options (entity_options name panel) (Some query)
              default_max_show) as [|first rest].
  - split; [intros _; apply F; reflexivity | reflexivity].
  - split; [discriminate|]. intros H. apply F in H. discriminate H.
Qed.

(** X21.  When the guard of a tab stops the run with "Sin coincidencias",
    whatever [str.strip()] and [str.lower()] take for whitespace and
    case: with a blank query only for an empty panel, and otherwise
    exactly when no name of the panel contains the lower-cased, trimmed
    query in its lower-cased form. *)
Theorem entity_tab_halts_iff
    (panel : list Row) (query : string) (pick : nat) (mes_obj : Timestamp) :
  entity_tab name mes q_col v_col m_col panel query pick mes_obj
    = SinCoincidencias
  <-> (blank query /\ panel = [])
      \/ (~ blank query
          /\ forall r, In r panel -> ~ matches_query query (name r)).
Proof. apply entity_tab_halts. Qed.

(** X22.  What a tab shows.  The selected name is the name of a row of the
    panel (and matches the query when the query is not blank); the
    "last available month" exists, is the month of a row of that entity
    and no row of the entity is later. *)
Theorem entity_tab_shown
    (panel : list Row) (query : string) (pick : nat) (mes_obj : Timestamp)
    (sel : string) (view : TabView) :
  entity_tab name mes q_col v_col m_col panel query pick mes_obj
    = Shown sel view ->
  (exists r, In r panel /\ name r = sel)
  /\ (~ blank query -> matches_query query sel)
  /\ exists L, last_available view = Some L
       /\ (exists r, In r panel /\ name r = sel /\ mes r = L)
       /\ (forall r, In r panel -> name r = sel -> ts_le (mes r) L).
Proof.
  unfold entity_tab.
  destruct (safe_filter_options (entity_options name panel) (Some query)
              default_max_show) as [|first rest] eqn:E; [discriminate|].
  set (fil := first :: rest) in *.
  assert (Hsel : In (nth pick fil first) fil)
    by (apply nth_default_In; left; reflexivity).
  remember (nth pick fil first) as sel0 eqn:Hs0. clear Hs0.
  intros H. injection H as <- <-. cbn [last_available].
  assert (Hopt : In sel0 (entity_options name panel)).
  { rewrite <- E in Hsel.
    eapply Subseq_In; [apply filter_result_subseq | exact Hsel]. }
  apply entity_options_In, in_map_iff in Hopt.
  destruct Hopt as [r0 [Hn0 Hr0]].
  split; [exists r0; auto|]. split.
  - intros W. rewrite <- E in Hsel.
    rewrite (filter_nonblank_query _ query _ W) in Hsel.
    eapply Subseq_In in Hsel; [|apply Subseq_slice_to].
    apply filter_In in Hsel. apply contains_spec, Hsel.
  - destruct (ts_max (map mes (entity_frame name mes sel0 panel)))
      as [L|] eqn:M.
    + exists L. split; [reflexivity|].
      destruct (ts_max_spec _ _ M) as [Hin Hle]. split.
      * apply in_map_iff in Hin. destruct Hin as [r [Hm Hr]].
        apply entity_frame_In in Hr. exists r. tauto.
      * intros r Hr Hn. apply Hle, in_map, entity_frame_In. auto.
    + exfalso. apply ts_max_none in M.
      assert (In r0 (entity_frame name mes sel0 panel))
        by (apply entity_frame_In; auto).
      destruct (entity_frame name mes sel0 panel); [contradiction|discriminate].
Qed.
End EntityTabFacts.

Lemma entity_tab_shown_witness :
  exists r,
    In r [mkProd "Pollo" (ts 2025 1) (fin 3) (fin 30) (fin 9) 2;
          mkProd "Arroz" (ts 2025 2) (fin 2) (fin 20) (fin 5) 1;
          mkProd "Arroz" (ts 2025 1) (fin 1) (fin 10) (fin 3) 1]
    /\ producto_normalizado r = "Arroz"%string.
Proof.
  refine (proj1 (entity_tab_shown (ops := ascii_ops)
                   producto_normalizado p_anio_mes
                   p_q_total_mes p_ventas_total_mes p_margen_total_mes
                   [mkProd "Pollo" (ts 2025 1) (fin 3) (fin 30) (fin 9) 2;
                    mkProd "Arroz" (ts 2025 2) (fin 2) (fin 20) (fin 5) 1;
                    mkProd "Arroz" (ts 2025 1) (fin 1) (fin 10) (fin 3) 1]
                   " arr"%string 0%nat (ts 2026 2) "Arroz"%string _ _)).
  vm_compute. reflexivity.
Defined.

(** ** The run of the page *)


(** ** Loading a panel *)

Lemma normalize_monotone a b :
  ts_le a b -> ts_le (to_period_M_to_timestamp a) (to_period_M_to_timestamp b).
Proof. unfold ts_le, to_period_M_to_timestamp. cbn [year month day]. lia. Qed.

(** X23.  What [load_parquet] does to the month column, for a column that can
    be written and read back: every month becomes the first day of its
    month, its year and month number are kept, and a panel that was in
    chronological order stays so. *)
Theorem load_parquet_normalises
    {Row : Type} (mes : Row -> Timestamp) (with_mes : Timestamp -> Row -> Row)
    (df : list Row) :
  (forall t r, mes (with_mes t r) = t) ->
  Forall (fun r => day (mes r) = 1) (load_parquet mes with_mes df)
  /\ map (fun r => (year (mes r), month (mes r))) (load_parquet mes with_mes df)
     = map (fun r => (year (mes r), month (mes r))) df
  /\ (StronglySorted (key_le mes) df ->
      StronglySorted (key_le mes) (load_parquet mes with_mes df)).
Proof.
  intros Law. unfold load_parquet. split; [|split].
  - apply Forall_forall. intros r Hr. apply in_map_iff in Hr.
    destruct Hr as [r0 [<- _]]. rewrite Law. reflexivity.
  - rewrite map_map. apply map_ext. intros r. rewrite Law. reflexivity.
  - induction 1 as [|x r Hr IH Hx]; simpl; constructor; [exact IH|].
    rewrite Forall_forall in *. intros y Hy. apply in_map_iff in Hy.
    destruct Hy as [y0 [<- Hy0]]. unfold key_le. rewrite !Law.
    apply normalize_monotone, Hx, Hy0.
Qed.

Lemma load_parquet_normalises_witness :
  Forall (fun r => day (p_anio_mes r) = 1)
    (load_parquet p_anio_mes prod_with_mes
       [mkProd "Arroz" (mkTs 2025 1 15) (fin 1) (fin 10) (fin 3) 1;
        mkProd "Arroz" (mkTs 2025 2 28) (fin 2) (fin 20) (fin 5) 1]).
Proof.
  refine (proj1 (load_parquet_normalises p_anio_mes prod_with_mes _ _)).
  reflexivity.
Defined.

(** ** The company tab *)

Lemma ts_max_ext l1 l2 :
  (forall t, In t l1 <-> In t l2) -> ts_max l1 = ts_max l2.
Proof.
  intros H.
  destruct (ts_max l1) as [m1|] eqn:E1, (ts_max l2) as [m2|] eqn:E2.
  - destruct (ts_max_spec _ _ E1) as [I1 L1].
    destruct (ts_max_spec _ _ E2) as [I2 L2].
    f_equal. apply ts_le_antisym; [apply L2, H, I1 | apply L1, H, I2].
  - apply ts_max_none in E2. subst l2.
    destruct (ts_max_spec _ _ E1) as [I1 _]. apply H in I1. contradiction.
  - apply ts_max_none in E1. subst l1.
    destruct (ts_max_spec _ _ E2) as [I2 _]. apply H in I2. contradiction.
  - reflexivity.
Qed.

(** X24.  The "last available month" of the company tab is the last month of
    the category panel: aggregating loses no month and adds none. *)
Theorem company_last_month (cat : list CatRow) :
  ts_max (map e_anio_mes (dfE cat)) = ts_max (map anio_mes cat).
Proof. apply ts_max_ext. apply dfE_keys. Qed.
